(** * Rejection sampler for speculative decoding (vllm/v1/sample/rejection_sampler.py)

    A shallow embedding of the host code of [RejectionSampler] and of the
    Triton kernels it launches, with the properties of the specification
    stated over it.

    Conventions of the embedding.
    - A tensor is its contiguous flat buffer, a [list]; a kernel receives the
      buffers it gets pointers to and returns the buffer it stores into.
    - [tl.load] outside a buffer is undefined in Triton; here it yields a
      default, and [tl.store] outside a buffer leaves it unchanged.  Theorems
      carry the shapes under which every access is in range.
    - Program ids, loop counters and sizes are [nat]; token ids are int64
      values in [Z] (only compared, never computed with).
    - A kernel grid is run one program after the other in program-id order;
      programs of one launch write disjoint cells. *)

From Stdlib Require Import ZArith List Lia Bool QArith Qminmax Psatz.
From stdpp Require Import list.

Local Open Scope nat_scope.

(** ** Constants of the module *)

Definition PLACEHOLDER_TOKEN_ID : Z := (-1)%Z.
Definition GREEDY_TEMPERATURE : Z := (-1)%Z.

(** ** The working floating-point type

    The kernels and the tensor code only add, subtract, divide and compare
    float32 values.  They are embedded over any type with these operations,
    so that what is proved of the control flow holds whatever the rounding
    (and for NaN); the properties that need the laws of arithmetic are
    stated at the exact instance below (rationals). *)

Class Arith (T : Type) : Type := {
  fof_Z : Z -> T;              (* an integer literal promoted to the type *)
  ftiny : T;                   (* torch.finfo(torch.float32).tiny *)
  fadd : T -> T -> T;
  fsub : T -> T -> T;
  fdiv : T -> T -> T;
  feqb : T -> T -> bool;       (* a == b *)
  fgeb : T -> T -> bool;       (* a >= b *)
  fltb : T -> T -> bool        (* a < b *)
}.

Definition fsum {T} `{Arith T} (l : list T) : T := fold_left fadd l (fof_Z 0).

(** ** Flat buffers *)

Definition load {A : Type} (d : A) (mem : list A) (i : nat) : A :=
  default d (mem !! i).

Definition store {A : Type} (mem : list A) (i : nat) (v : A) : list A :=
  <[ i := v ]> mem.

(** Offsets that add a token id (an int64) to an index. *)
Definition load_at {A : Type} (d : A) (mem : list A) (base : nat) (off : Z) : A :=
  if (Z.of_nat base + off <? 0)%Z then d
  else load d mem (Z.to_nat (Z.of_nat base + off)).

(** ** The verifier kernels: state of the per-row scan *)

Record scan : Type := mkScan {
  out : list Z;            (* output_token_ids buffer *)
  rejected : bool;
  finished : bool;
  num_generated : nat
}.

Definition scan_init (o : list Z) : scan := mkScan o false false 0.

(** *** rejection_greedy_sample_kernel *)

Section Greedy.
Variables (draft_token_ids target_argmax bonus_token_ids : list Z).
Variable is_greedy : list bool.
Variable max_spec_len : nat.

  (** Body of [for pos in range(max_spec_len)]. *)
Definition greedy_body (seq_idx : nat) (s : scan) (pos : nat) : scan :=
    if negb (finished s) then
      let token_id := load 0%Z draft_token_ids (seq_idx * max_spec_len + pos) in
      if (token_id =? PLACEHOLDER_TOKEN_ID)%Z then
        mkScan (out s) (rejected s) true (num_generated s)
      else
        let draft_token_id :=
          load 0%Z draft_token_ids (seq_idx * max_spec_len + pos) in
        let argmax := load 0%Z target_argmax (seq_idx * max_spec_len + pos) in
        if (draft_token_id =? argmax)%Z then
          (* Accept. *)
          mkScan (store (out s) (seq_idx * (max_spec_len + 1) + pos) draft_token_id)
                 (rejected s) (finished s) (num_generated s + 1)
        else
          (* Reject. *)
          mkScan (store (out s) (seq_idx * (max_spec_len + 1) + pos) argmax)
                 true true (num_generated s + 1)
    else s.

Definition rejection_greedy_sample_kernel
      (output_token_ids : list Z) (seq_idx : nat) : list Z :=
    if negb (load false is_greedy seq_idx) then
      (* Early exit for non-greedy sampling requests. *)
      output_token_ids
    else
      let s := fold_left (greedy_body seq_idx) (seq 0 max_spec_len)
                         (scan_init output_token_ids) in
      if negb (rejected s) then
        (* If all tokens are accepted, append the bonus token. *)
        store (out s) (seq_idx * (max_spec_len + 1) + num_generated s)
              (load 0%Z bonus_token_ids seq_idx)
      else out s.
End Greedy.

(** *** rejection_random_sample_kernel *)

Section Random.
Context {T : Type} `{Arith T}.
Variable draft_token_ids : list Z.
Variable draft_probs : option (list T).      (* None for n-gram drafting *)
Variable target_probs : list T.
Variables (bonus_token_ids recovered_token_ids : list Z).
Variable uniform_probs : list T.
Variable is_greedy : list bool.
Variables (max_spec_len vocab_size : nat).
Variable IS_NGRAM : bool.

Definition random_body (seq_idx : nat) (s : scan) (pos : nat) : scan :=
    if negb (finished s) then
      let token_id := load 0%Z draft_token_ids (seq_idx * max_spec_len + pos) in
      if (token_id =? PLACEHOLDER_TOKEN_ID)%Z then
        mkScan (out s) (rejected s) true (num_generated s)
      else
        let draft_prob :=
          if IS_NGRAM then fof_Z 1
          else
            (* NOTE(woosuk): Here, we assume that draft_prob is nonzero. *)
            load_at (fof_Z 0) (default [] draft_probs)
                    (seq_idx * max_spec_len * vocab_size + pos * vocab_size)
                    token_id in
        let target_prob :=
          load_at (fof_Z 0) target_probs
                  (seq_idx * max_spec_len * vocab_size + pos * vocab_size)
                  token_id in
        let uniform_prob :=
          load (fof_Z 0) uniform_probs (seq_idx * max_spec_len + pos) in
        if fgeb (fdiv target_prob draft_prob) uniform_prob then
          (* Accept. *)
          mkScan (store (out s) (seq_idx * (max_spec_len + 1) + pos) token_id)
                 (rejected s) (finished s) (num_generated s + 1)
        else
          (* Reject. Use recovered token. *)
          let recovered_token_id :=
            load 0%Z recovered_token_ids (seq_idx * max_spec_len + pos) in
          mkScan (store (out s) (seq_idx * (max_spec_len + 1) + pos)
                        recovered_token_id)
                 true true (num_generated s + 1)
    else s.

Definition rejection_random_sample_kernel
      (output_token_ids : list Z) (seq_idx : nat) : list Z :=
    if load false is_greedy seq_idx then
      (* Early exit for greedy sampling requests. *)
      output_token_ids
    else
      let s := fold_left (random_body seq_idx) (seq 0 max_spec_len)
                         (scan_init output_token_ids) in
      if negb (rejected s) then
        (* If all tokens are accepted, append the bonus token. *)
        store (out s) (seq_idx * (max_spec_len + 1) + num_generated s)
              (load 0%Z bonus_token_ids seq_idx)
      else out s.
End Random.

(** A one-dimensional grid [(n, )]: programs 0 .. n-1. *)
Definition launch {A : Type} (kernel : A -> nat -> A) (n : nat) (mem : A) : A :=
  fold_left kernel (seq 0 n) mem.

(** ** Tensor helpers used by the host code *)

(** Row [r] of a buffer seen as a matrix with rows of width [w]. *)
Definition row {A : Type} (w : nat) (mem : list A) (r : nat) : list A :=
  take w (drop (r * w) mem).

(** [t[start:start+len(vals)] = vals]. *)
Definition write_slice {A : Type} (mem : list A) (start : nat) (vals : list A)
  : list A :=
  take start mem ++ vals ++ drop (start + length vals) mem.

Section TensorOps.
Context {T : Type} `{Arith T}.

  (** [argmax] of a vector: the index of the first maximal value. *)
Fixpoint argmax_from (best_i : nat) (best : T) (i : nat) (l : list T) : nat :=
    match l with
    | [] => best_i
    | x :: l' =>
        if fltb best x then argmax_from i x (S i) l'
        else argmax_from best_i best (S i) l'
    end.

Definition argmax (l : list T) : nat :=
    match l with
    | [] => 0
    | x :: l' => argmax_from 0 x 1 l'
    end.

  (** [t.argmax(dim=-1)] of a buffer with last dimension [w], flattened. *)
Definition argmax_last (w : nat) (mem : list T) (rows : nat) : list Z :=
    map (fun r => Z.of_nat (argmax (row w mem r))) (seq 0 rows).

  (** [torch.clamp(x, min=m)]. *)
Definition clamp_min (m x : T) : T := if fltb x m then m else x.

  (** [row /= row.sum()]. *)
Definition normalize (l : list T) : list T :=
    map (fun x => fdiv x (fsum l)) l.
End TensorOps.

(** ** rejection_sample *)

(** A [torch.Generator] bound to a request, by the draws it yields in this
    call: [gen_uniform n] for [uniform_] over [n] cells, then
    [gen_exponential n] for [exponential_] over [n] cells. *)
Record generator (T : Type) : Type := mkGenerator {
  gen_uniform : nat -> list T;
  gen_exponential : nat -> list T
}.
Arguments mkGenerator {T} _ _.
Arguments gen_uniform {T} _ _.
Arguments gen_exponential {T} _ _.

(** The fields of [SamplingMetadata] that the sampler reads. *)
Record SamplingMetadata (T : Type) : Type := mkSamplingMetadata {
  temperature : list T;                        (* [batch_size] *)
  all_greedy : bool;
  all_random : bool;
  generators : list (nat * generator T)        (* dict: request index -> generator *)
}.
Arguments mkSamplingMetadata {T} _ _ _ _.
Arguments temperature {T} _.
Arguments all_greedy {T} _.
Arguments all_random {T} _.
Arguments generators {T} _.

Section RejectionSample.
Context {T : Type} `{Arith T}.

  (** Lines 149-159: [torch.rand] ([rand_default] is what it returned), then
      the cells of each seeded request redrawn from its generator. *)
Definition draw_uniform_probs (max_spec_len : nat) (num_draft_tokens : list nat)
      (gens : list (nat * generator T)) (rand_default : list T) : list T :=
    fold_left
      (fun u ig =>
         let num_tokens := load 0 num_draft_tokens (fst ig) in
         if 0 <? num_tokens then
           write_slice u (fst ig * max_spec_len)
                       (take num_tokens (gen_uniform (snd ig) num_tokens))
         else u)
      gens rand_default.

  (** [torch.where(draft_token_ids == PLACEHOLDER_TOKEN_ID, 0, draft_token_ids)] *)
Definition safe_draft_token_ids (draft_token_ids : list Z) : list Z :=
    map (fun t => if (t =? PLACEHOLDER_TOKEN_ID)%Z then 0%Z else t) draft_token_ids.

  (** [probs.scatter_(2, index.unsqueeze(-1), 0)]: in row [r], the cell
      [index[r]] is set to 0.  (An index outside [0, vocab_size) is an error
      in torch; it writes nothing here.) *)
Definition scatter_zero (vocab_size : nat) (probs : list T) (index : list Z)
    : list T :=
    fold_left
      (fun p r =>
         let t := load 0%Z index r in
         if ((0 <=? t)%Z && (t <? Z.of_nat vocab_size)%Z)%bool then
           store p (r * vocab_size + Z.to_nat t) (fof_Z 0)
         else p)
      (seq 0 (length index)) probs.

  (** Lines 163-175: the adjusted probabilities, [batch_size, max_spec_len,
      vocab_size]. *)
Definition residual_probs (batch_size max_spec_len vocab_size : nat)
      (draft_token_ids : list Z) (draft_probs : option (list T))
      (target_probs : list T) : list T :=
    let probs :=
      match draft_probs with
      | None =>
          scatter_zero vocab_size target_probs
                       (safe_draft_token_ids draft_token_ids)
      | Some dp =>
          zip_with (fun t d => clamp_min ftiny (fsub t d)) target_probs dp
      end in
    concat (map (fun r => normalize (row vocab_size probs r))
                (seq 0 (batch_size * max_spec_len))).

  (** Lines 178-186: [q], [batch_size, vocab_size]; [exp_default] is what
      [q.exponential_()] drew. *)
Definition draw_q (vocab_size : nat) (num_draft_tokens : list nat)
      (gens : list (nat * generator T)) (exp_default : list T) : list T :=
    fold_left
      (fun q ig =>
         if 0 <? load 0 num_draft_tokens (fst ig) then
           write_slice q (fst ig * vocab_size)
                       (take vocab_size (gen_exponential (snd ig) vocab_size))
         else q)
      gens exp_default.

  (** Lines 187-189: [probs.div_(q.unsqueeze(1)).argmax(dim=-1)], viewed as
      [batch_size, max_spec_len]: row [r = b * max_spec_len + p] of [probs]
      is divided by row [b] of [q]. *)
Definition recover_token_ids (batch_size max_spec_len vocab_size : nat)
      (probs q : list T) : list Z :=
    map (fun r =>
           Z.of_nat (argmax (zip_with fdiv (row vocab_size probs r)
                                      (row vocab_size q (r / max_spec_len)))))
        (seq 0 (batch_size * max_spec_len)).

Definition is_greedy_of (sm : SamplingMetadata T) : list bool :=
    map (fun t => feqb t (fof_Z GREEDY_TEMPERATURE)) (temperature sm).

  (** The shape of [draft_token_ids] is [batch_size, max_spec_len] and the
      last dimension of [target_probs] is [vocab_size]. *)
Definition rejection_sample (batch_size max_spec_len vocab_size : nat)
      (draft_token_ids : list Z) (num_draft_tokens : list nat)
      (draft_probs : option (list T)) (target_probs : list T)
      (bonus_token_ids : list Z) (sampling_metadata : SamplingMetadata T)
      (rand_default exp_default : list T) : list Z :=
    let output_token_ids :=
      replicate (batch_size * (max_spec_len + 1)) PLACEHOLDER_TOKEN_ID in
    let is_greedy := is_greedy_of sampling_metadata in
    let output_token_ids :=
      if negb (all_random sampling_metadata) then
        (* Rejection sampling for greedy sampling requests. *)
        let target_argmax :=
          argmax_last vocab_size target_probs (batch_size * max_spec_len) in
        launch (rejection_greedy_sample_kernel draft_token_ids target_argmax
                  bonus_token_ids is_greedy max_spec_len)
               batch_size output_token_ids
      else output_token_ids in
    if (negb (all_random sampling_metadata) && all_greedy sampling_metadata)%bool
    then output_token_ids
    else
      let uniform_probs :=
        draw_uniform_probs max_spec_len num_draft_tokens
                           (generators sampling_metadata) rand_default in
      let is_ngram := match draft_probs with None => true | Some _ => false end in
      let probs :=
        residual_probs batch_size max_spec_len vocab_size draft_token_ids
                       draft_probs target_probs in
      let q :=
        draw_q vocab_size num_draft_tokens (generators sampling_metadata)
               exp_default in
      let recovered_token_ids :=
        recover_token_ids batch_size max_spec_len vocab_size probs q in
      launch (rejection_random_sample_kernel draft_token_ids draft_probs
                target_probs bonus_token_ids recovered_token_ids uniform_probs
                is_greedy max_spec_len vocab_size is_ngram)
             batch_size output_token_ids.
End RejectionSample.

(** ** Exceptions *)

Inductive exn : Type :=
| ValueError          (* max() of an empty sequence *)
| AssertionError      (* a failed assert *)
| AttributeError      (* a name the module does not define *)
| IndexError          (* a dimension the tensor does not have *)
| RuntimeError.       (* an in-place result that does not fit the tensor *)

(** ** compute_probs *)

(** [triton.next_power_of_two], line 342.  Triton has no attribute of this
    name (its function is [next_power_of_2]): looking it up raises, whatever
    the argument. *)
Definition next_power_of_two (n : nat) : exn + nat := inl AttributeError.

Section ComputeProbs.
Context {T : Type} `{Arith T}.
  (** [tl.softmax], of the Triton library. *)
Variable tl_softmax : list T -> list T.
  (** What [tl.load] leaves in a lane whose mask is false: the call gives no
      [other], so the value is not the kernel's to choose. *)
Variable masked_lane : nat -> T.

Definition compute_probs_kernel (logits temperature : list T)
      (cu_num_draft_tokens : list nat) (vocab_size PADDED_VOCAB_SIZE : nat)
      (output_prob_buf : list T) (req_idx pos : nat) : list T :=
    let start_idx :=
      if req_idx =? 0 then 0 else load 0 cu_num_draft_tokens (req_idx - 1) in
    let end_idx := load 0 cu_num_draft_tokens req_idx in
    (* Early exit for out-of-range positions. *)
    if end_idx - start_idx <=? pos then output_prob_buf
    else
      let vocab_offset := seq 0 PADDED_VOCAB_SIZE in
      let logits_blk :=
        map (fun off =>
               if off <? vocab_size then
                 load (fof_Z 0) logits ((start_idx + pos) * vocab_size + off)
               else masked_lane off)
            vocab_offset in
      let temp := load (fof_Z 0) temperature req_idx in
      let output_prob :=
        if feqb temp (fof_Z GREEDY_TEMPERATURE) then
          (* Greedy sampling. Just return the logits. *)
          logits_blk
        else
          (* Random sampling. *)
          tl_softmax (map (fun x => fdiv x temp) logits_blk) in
      fold_left
        (fun o off =>
           if off <? vocab_size then
             store o ((start_idx + pos) * vocab_size + off)
                   (load (fof_Z 0) output_prob off)
           else o)
        vocab_offset output_prob_buf.

  (** [empty_like] is the content of the buffer [torch.empty_like] returns;
      the grid is [(batch_size, max_spec_len)].  The arguments of the launch
      are evaluated first: the launch takes place only if
      [triton.next_power_of_two] returns. *)
Definition compute_probs (empty_like logits temperature : list T)
      (cu_num_draft_tokens : list nat) (max_spec_len vocab_size : nat)
    : exn + list T :=
    let output_prob := empty_like in
    let batch_size := length temperature in
    match next_power_of_two vocab_size with
    | inl e => inl e
    | inr PADDED_VOCAB_SIZE =>
        inr (fold_left
               (fun o req_idx =>
                  fold_left
                    (fun o' pos =>
                       compute_probs_kernel logits temperature
                         cu_num_draft_tokens vocab_size PADDED_VOCAB_SIZE o'
                         req_idx pos)
                    (seq 0 max_spec_len) o)
               (seq 0 batch_size) output_prob)
    end.
End ComputeProbs.

(** ** RejectionSampler *)

(** [_async_copy_to_device]: the new content of [self.buffer] and the
    [batch_size, max_spec_len] matrix sent to the device. *)
Fixpoint copy_rows (max_spec_len : nat) (i : nat) (rows : list (list Z))
    (draft_token_ids_np : list Z) : list Z :=
  match rows with
  | [] => draft_token_ids_np
  | token_ids :: rest =>
      let start := i * max_spec_len in
      copy_rows max_spec_len (S i) rest
                (write_slice draft_token_ids_np start token_ids)
  end.

Definition async_copy_to_device (max_num_tokens : nat) (buffer : list Z)
    (draft_token_ids : list (list Z)) : exn + (list Z * list Z) :=
  let batch_size := length draft_token_ids in
  let num_draft_tokens := map length draft_token_ids in
  match num_draft_tokens with
  | [] => inl ValueError
  | _ =>
      let max_spec_len := max_list num_draft_tokens in
      if negb (batch_size * max_spec_len <=? max_num_tokens) then
        inl AssertionError
      else
        let n := batch_size * max_spec_len in
        let draft_token_ids_np := take n buffer in
        (* fill(PLACEHOLDER_TOKEN_ID) *)
        let draft_token_ids_np :=
          replicate (length draft_token_ids_np) PLACEHOLDER_TOKEN_ID in
        let draft_token_ids_np :=
          copy_rows max_spec_len 0 draft_token_ids draft_token_ids_np in
        (* the slice is a view: the writes land in the buffer *)
        inr (draft_token_ids_np ++ drop n buffer, draft_token_ids_np)
  end.

(** [parse_output], on the rows [output_token_ids.tolist()] gives. *)
Fixpoint parse_row (token_ids : list Z) : list Z :=
  match token_ids with
  | [] => []
  | token_id :: rest =>
      if (token_id =? PLACEHOLDER_TOKEN_ID)%Z then []
      else token_id :: parse_row rest
  end.

Definition parse_output (output_token_ids : list (list Z)) : list (list Z) :=
  map parse_row output_token_ids.

(** [t.tolist()] of a [rows, width] tensor. *)
Definition tolist {A : Type} (rows width : nat) (mem : list A) : list (list A) :=
  map (row width mem) (seq 0 rows).

(** [forward].  Besides what it returns, the model records the kernel
    launches and transfers the call has issued, in order, and the content
    of the staging buffer it leaves. *)
Inductive device_op : Type :=
| Launch_compute_probs_kernel (grid0 grid1 : nat)
| Copy_to_device (cells : nat)
| Launch_rejection_greedy_sample_kernel (grid0 : nat)
| Launch_rejection_random_sample_kernel (grid0 : nat).

Record call (A : Type) : Type := mkCall {
  issued : list device_op;
  staging : list Z;
  returned : exn + A
}.
Arguments mkCall {A} _ _ _.
Arguments issued {A} _.
Arguments staging {A} _.
Arguments returned {A} _.

Section Forward.
Context {T : Type} `{Arith T}.
Variable tl_softmax : list T -> list T.
Variable masked_lane : nat -> T.

  (** The launches of [rejection_sample], following its branches. *)
Definition rejection_sample_ops (batch_size : nat) (sm : SamplingMetadata T)
    : list device_op :=
    (if negb (all_random sm)
     then [Launch_rejection_greedy_sample_kernel batch_size] else [])
    ++ (if (negb (all_random sm) && all_greedy sm)%bool then []
        else [Launch_rejection_random_sample_kernel batch_size]).

Definition forward (max_num_tokens : nat) (buffer : list Z)
      (draft_token_ids : list (list Z)) (cu_num_draft_tokens : list nat)
      (draft_probs : option (list T)) (target_logits : list T)
      (vocab_size : nat) (bonus_token_ids : list Z)
      (sampling_metadata : SamplingMetadata T)
      (empty_like rand_default exp_default : list T) : call (list Z) :=
    let num_draft_tokens := map length draft_token_ids in
    match num_draft_tokens with
    | [] => mkCall [] buffer (inl ValueError)
    | _ =>
        let max_spec_len := max_list num_draft_tokens in
        match
          compute_probs tl_softmax masked_lane empty_like target_logits
            (temperature sampling_metadata) cu_num_draft_tokens max_spec_len
            vocab_size
        with
        | inl e => mkCall [] buffer (inl e)
        | inr target_probs =>
            let ops :=
              [Launch_compute_probs_kernel
                 (length (temperature sampling_metadata)) max_spec_len] in
            match async_copy_to_device max_num_tokens buffer draft_token_ids with
            | inl e => mkCall ops buffer (inl e)
            | inr (buffer', draft_token_ids_tensor) =>
                let batch_size := length draft_token_ids in
                let copied :=
                  ops ++ [Copy_to_device (batch_size * max_spec_len)] in
                (* [target_probs] is [num_tokens, vocab_size] where
                   [rejection_sample] takes [batch_size, max_spec_len,
                   vocab_size].  The greedy path reads it through
                   [argmax(dim=-1)] and pointers only; the random path
                   addresses dimension 2 ([scatter_(2, ...)]) or divides in
                   place by the three-dimensional [q], and raises. *)
                if (negb (all_random sampling_metadata)
                    && all_greedy sampling_metadata)%bool
                then
                  mkCall
                    (copied ++ rejection_sample_ops batch_size sampling_metadata)
                    buffer'
                    (inr (rejection_sample batch_size max_spec_len vocab_size
                            draft_token_ids_tensor num_draft_tokens draft_probs
                            target_probs bonus_token_ids sampling_metadata
                            rand_default exp_default))
                else
                  mkCall
                    (copied
                     ++ (if negb (all_random sampling_metadata)
                         then [Launch_rejection_greedy_sample_kernel batch_size]
                         else []))
                    buffer'
                    (inl (match draft_probs with
                          | None => IndexError
                          | Some _ => RuntimeError
                          end))
            end
        end
    end.
End Forward.

(** ** Exact instances of the arithmetic *)

(** Rationals: the arithmetic of the sampler without rounding. *)
#[export] Instance Arith_Q : Arith Q := {|
  fof_Z := inject_Z;
  ftiny := (1 # (2 ^ 126))%Q;
  fadd := Qplus;
  fsub := Qminus;
  fdiv := Qdiv;
  feqb := Qeq_bool;
  fgeb := fun a b => Qle_bool b a;
  fltb := fun a b => negb (Qle_bool b a)
|}.

(** ** The scan of a row, in general

    Both verifier kernels run the same scan; they differ in the test that
    accepts a position and in the token written on rejection.  The scan is
    stated once over these two, and each kernel is shown to be an instance
    of it. *)

Section Verdict.
Variable tok : nat -> Z.        (* the drafted token at a position *)
Variable acc : nat -> bool.     (* the acceptance test at a position *)
Variable rep : nat -> Z.        (* the token written on rejection *)
Variable base : nat.            (* offset of the row in the output *)

Definition verdict_body (s : scan) (pos : nat) : scan :=
    if negb (finished s) then
      if (tok pos =? PLACEHOLDER_TOKEN_ID)%Z then
        mkScan (out s) (rejected s) true (num_generated s)
      else if acc pos then
        mkScan (store (out s) (base + pos) (tok pos))
               (rejected s) (finished s) (num_generated s + 1)
      else
        mkScan (store (out s) (base + pos) (rep pos)) true true
               (num_generated s + 1)
    else s.

Definition verdict_kernel (bonus : Z) (w : nat) (o : list Z) : list Z :=
    let s := fold_left verdict_body (seq 0 w) (scan_init o) in
    if negb (rejected s) then store (out s) (base + num_generated s) bonus
    else out s.

  (** The cells written by accepting positions 0 .. n-1. *)
Definition accept_writes (n : nat) (o : list Z) : list Z :=
    fold_left (fun m q => store m (base + q) (tok q)) (seq 0 n) o.

  (** Positions 0 .. k-1 hold a drafted token that passes the test. *)
Definition accepted_prefix (k : nat) : Prop :=
    forall q, q < k -> tok q <> PLACEHOLDER_TOKEN_ID /\ acc q = true.
End Verdict.

(** What the statements say of a row. *)

(** The drafted tokens of row [seq_idx] at positions 0 .. n-1. *)
Definition draft_prefix (draft_token_ids : list Z) (max_spec_len seq_idx n : nat)
  : list Z :=
  map (fun q => load 0%Z draft_token_ids (seq_idx * max_spec_len + q)) (seq 0 n).

(** Row [seq_idx] of the draft matrix holds a draft of length [n]: real
    tokens at 0 .. n-1, then a placeholder unless the row is full. *)
Definition draft_length (draft_token_ids : list Z) (max_spec_len seq_idx n : nat)
  : Prop :=
  n <= max_spec_len
  /\ (forall q, q < n ->
        load 0%Z draft_token_ids (seq_idx * max_spec_len + q)
        <> PLACEHOLDER_TOKEN_ID)
  /\ (n < max_spec_len ->
        load 0%Z draft_token_ids (seq_idx * max_spec_len + n)
        = PLACEHOLDER_TOKEN_ID).

(** Row [seq_idx] of an output buffer holds only placeholders. *)
Definition blank_row (o : list Z) (max_spec_len seq_idx : nat) : Prop :=
  forall j, j <= max_spec_len ->
    load 0%Z o (seq_idx * (max_spec_len + 1) + j) = PLACEHOLDER_TOKEN_ID.

(** Row [seq_idx] of an output buffer is a contiguous prefix. *)
Definition prefix_closed_row (o : list Z) (max_spec_len seq_idx : nat) : Prop :=
  forall p p', p < p' -> p' <= max_spec_len ->
    load 0%Z o (seq_idx * (max_spec_len + 1) + p) = PLACEHOLDER_TOKEN_ID ->
    load 0%Z o (seq_idx * (max_spec_len + 1) + p') = PLACEHOLDER_TOKEN_ID.

(** The acceptance tests of the two kernels at a position of a row. *)
Definition greedy_accepts (draft_token_ids target_argmax : list Z)
    (max_spec_len seq_idx pos : nat) : bool :=
  (load 0%Z draft_token_ids (seq_idx * max_spec_len + pos)
   =? load 0%Z target_argmax (seq_idx * max_spec_len + pos))%Z.

Definition random_accepts {T : Type} `{Arith T} (draft_token_ids : list Z)
    (draft_probs : option (list T)) (target_probs uniform_probs : list T)
    (max_spec_len vocab_size : nat) (IS_NGRAM : bool) (seq_idx pos : nat) : bool :=
  let token_id := load 0%Z draft_token_ids (seq_idx * max_spec_len + pos) in
  let draft_prob :=
    if IS_NGRAM then fof_Z 1
    else load_at (fof_Z 0) (default [] draft_probs)
           (seq_idx * max_spec_len * vocab_size + pos * vocab_size) token_id in
  let target_prob :=
    load_at (fof_Z 0) target_probs
      (seq_idx * max_spec_len * vocab_size + pos * vocab_size) token_id in
  let uniform_prob :=
    load (fof_Z 0) uniform_probs (seq_idx * max_spec_len + pos) in
  fgeb (fdiv target_prob draft_prob) uniform_prob.

(** ** Notions used in the statements *)

(** Row [r] has the same cells in two buffers. *)
Definition same_row (w : nat) (o o' : list Z) (r : nat) : Prop :=
  forall j, j <= w -> load 0%Z o' (r * (w + 1) + j) = load 0%Z o (r * (w + 1) + j).

(** A draft padded with placeholders to the width of the matrix. *)
Definition pad_row (w : nat) (token_ids : list Z) : list Z :=
  token_ids ++ replicate (w - length token_ids) PLACEHOLDER_TOKEN_ID.

(** The output in which every draft is accepted, built from the rows of the
    packed draft matrix: the tokens of the row up to its first placeholder,
    the bonus token, then placeholders up to width + 1. *)
Definition all_accepted_output (draft_rows : list (list Z))
    (bonus_token_ids : list Z) : list (list Z) :=
  zip_with
    (fun r b =>
       let d := parse_row r in
       d ++ [b] ++ replicate (length r - length d) PLACEHOLDER_TOKEN_ID)
    draft_rows bonus_token_ids.

(** [cu_num_draft_tokens] as the caller builds it: the running sum of the
    draft lengths, request [i]'s slice ending at entry [i]. *)
Fixpoint cumsum_from (acc : nat) (lens : list nat) : list nat :=
  match lens with
  | [] => []
  | n :: rest => (acc + n) :: cumsum_from (acc + n) rest
  end.

Definition cu_num_draft_tokens_of (num_draft_tokens : list nat) : list nat :=
  cumsum_from 0 num_draft_tokens.

(** Offset of element [off] of (request, position) in the buffer
    [compute_probs_kernel] stores to: row [start_idx + pos]. *)
Definition packed_offset (cu_num_draft_tokens : list nat) (vocab_size : nat)
    (req_idx pos off : nat) : nat :=
  let start_idx :=
    if req_idx =? 0 then 0 else load 0 cu_num_draft_tokens (req_idx - 1) in
  (start_idx + pos) * vocab_size + off.

(** The positions [compute_probs_kernel] does not skip. *)
Definition in_range (cu_num_draft_tokens : list nat) (req_idx pos : nat) : Prop :=
  let start_idx :=
    if req_idx =? 0 then 0 else load 0 cu_num_draft_tokens (req_idx - 1) in
  let end_idx := load 0 cu_num_draft_tokens req_idx in
  pos < end_idx - start_idx.

(** Offset of the same element as [rejection_random_sample_kernel] (and
    the [batch_size, max_spec_len, vocab_size] view of [rejection_sample])
    addresses it. *)
Definition dense_offset (max_spec_len vocab_size : nat) (seq_idx pos off : nat)
  : nat :=
  seq_idx * max_spec_len * vocab_size + pos * vocab_size + off.

(** The two layouts agree on every element the constructor writes. *)
Definition layouts_agree (num_draft_tokens : list nat) (vocab_size : nat) : Prop :=
  forall req_idx pos off,
    req_idx < length num_draft_tokens ->
    in_range (cu_num_draft_tokens_of num_draft_tokens) req_idx pos ->
    off < vocab_size ->
    packed_offset (cu_num_draft_tokens_of num_draft_tokens) vocab_size
                  req_idx pos off
    = dense_offset (max_list num_draft_tokens) vocab_size req_idx pos off.

(** The masked store of a block at a row of the output. *)
Definition masked_store {T : Type} (d : T) (vocab_size padded : nat)
    (buf : list T) (base : nat) (blk : list T) : list T :=
  fold_left
    (fun o off =>
       if off <? vocab_size then store o (base + off) (load d blk off) else o)
    (seq 0 padded) buf.

(** The block the masked load of row [r] of the logits gives. *)
Definition logits_block {T : Type} `{Arith T} (masked_lane : nat -> T)
    (logits : list T) (vocab_size padded r : nat) : list T :=
  map (fun off =>
         if off <? vocab_size
         then load (fof_Z 0) logits (r * vocab_size + off)
         else masked_lane off)
      (seq 0 padded).

(** [start_idx] of a request in [compute_probs_kernel]. *)
Definition start_idx (cu_num_draft_tokens : list nat) (req_idx : nat) : nat :=
  if req_idx =? 0 then 0 else load 0 cu_num_draft_tokens (req_idx - 1).

(** * Properties *)

(** ** Buffers *)

Lemma length_store {A} (mem : list A) i v : length (store mem i v) = length mem.
Proof. apply length_insert. Qed.

Lemma load_store_eq {A} (d : A) mem i v :
  i < length mem -> load d (store mem i v) i = v.
Proof. intros Hi. unfold load, store. by rewrite list_lookup_insert_eq. Qed.

Lemma load_store_ne {A} (d : A) mem i j v :
  i <> j -> load d (store mem i v) j = load d mem j.
Proof. intros Hij. unfold load, store. by rewrite list_lookup_insert_ne. Qed.

Lemma lookup_store_ne {A} (mem : list A) i j v :
  i <> j -> store mem i v !! j = mem !! j.
Proof. intros Hij. unfold store. by rewrite list_lookup_insert_ne. Qed.

Lemma load_lookup {A} (d : A) mem mem' i :
  mem' !! i = mem !! i -> load d mem' i = load d mem i.
Proof. unfold load. by intros ->. Qed.

(** ** The scan *)

Section VerdictFacts.
Variable tok : nat -> Z.
Variable acc : nat -> bool.
Variable rep : nat -> Z.
Variable base : nat.

Lemma length_accept_writes n o :
    length (accept_writes tok base n o) = length o.
Proof.
    unfold accept_writes. revert o.
    induction (seq 0 n) as [|q l IH]; intros o; simpl; [done|].
    by rewrite IH, length_store.
Qed.

Lemma accept_writes_S n o :
    accept_writes tok base (S n) o
    = store (accept_writes tok base n o) (base + n) (tok n).
Proof. unfold accept_writes. by rewrite seq_S, fold_left_app. Qed.

Lemma accept_writes_outside n o i :
    i < base \/ base + n <= i ->
    accept_writes tok base n o !! i = o !! i.
Proof.
    induction n as [|n IH]; intros Hi; [done|].
    rewrite accept_writes_S, lookup_store_ne by lia. apply IH. lia.
Qed.

Lemma accept_writes_inside n o q :
    q < n -> base + n <= length o ->
    load 0%Z (accept_writes tok base n o) (base + q) = tok q.
Proof.
    induction n as [|n IH]; intros Hq Hn; [lia|].
    rewrite accept_writes_S.
    destruct (decide (q = n)) as [->|Hne].
    - apply load_store_eq. rewrite length_accept_writes. lia.
    - rewrite load_store_ne by lia. apply IH; lia.
Qed.

Lemma verdict_finished l s :
    finished s = true -> fold_left (verdict_body tok acc rep base) l s = s.
Proof.
    intros Hf. induction l as [|p l IH]; simpl; [done|].
    unfold verdict_body at 2. rewrite Hf. simpl. exact IH.
Qed.

  (** While every position is accepted the scan goes on. *)
Lemma verdict_accepting n o :
    accepted_prefix tok acc n ->
    fold_left (verdict_body tok acc rep base) (seq 0 n) (scan_init o)
    = mkScan (accept_writes tok base n o) false false n.
Proof.
    induction n as [|n IH]; intros Hacc; [done|].
    rewrite seq_S, fold_left_app, IH by (intros q Hq; apply Hacc; lia).
    rewrite accept_writes_S. simpl. unfold verdict_body. simpl.
    destruct (Hacc n) as [Htok Ha]; [lia|].
    apply Z.eqb_neq in Htok. rewrite Htok, Ha. f_equal. lia.
Qed.

  (** The scan stops at the first position that is a placeholder, that is
      rejected, or that is the end of the row. *)
Lemma first_stop w :
    exists k, k <= w /\ accepted_prefix tok acc k
              /\ (k < w -> tok k = PLACEHOLDER_TOKEN_ID \/ acc k = false).
Proof.
    induction w as [|w (k & Hk & Hacc & Hstop)].
    - exists 0. split; [lia|]. split; [intros q Hq; lia | lia].
    - destruct (decide (k = w)) as [->|Hne].
      + destruct (decide (tok w = PLACEHOLDER_TOKEN_ID)) as [Hp|Hp].
        { exists w. split; [lia|]. split; [done|]. by left. }
        destruct (acc w) eqn:Ha.
        * exists (S w). split; [lia|]. split; [|lia].
          intros q Hq. destruct (decide (q = w)) as [->|]; [done|].
          apply Hacc. lia.
        * exists w. split; [lia|]. split; [done|]. by right.
      + exists k. split; [lia|]. split; [done|]. intros _. apply Hstop. lia.
Qed.

  (** The three ways a row ends. *)
Lemma verdict_kernel_full bonus w o :
    accepted_prefix tok acc w ->
    verdict_kernel tok acc rep base bonus w o
    = store (accept_writes tok base w o) (base + w) bonus.
Proof.
    intros Hacc. unfold verdict_kernel. by rewrite verdict_accepting.
Qed.

Lemma seq_split k w :
    k < w -> seq 0 w = seq 0 k ++ k :: seq (S k) (w - S k).
Proof.
    intros Hk. replace w with (k + S (w - S k)) at 1 by lia.
    by rewrite seq_app.
Qed.

Lemma verdict_kernel_placeholder bonus w o k :
    k < w -> accepted_prefix tok acc k -> tok k = PLACEHOLDER_TOKEN_ID ->
    verdict_kernel tok acc rep base bonus w o
    = store (accept_writes tok base k o) (base + k) bonus.
Proof.
    intros Hk Hacc Hp. unfold verdict_kernel.
    rewrite (seq_split k w Hk), fold_left_app, verdict_accepting by done.
    cbn [fold_left].
    assert (Hstep : verdict_body tok acc rep base
                      (mkScan (accept_writes tok base k o) false false k) k
                    = mkScan (accept_writes tok base k o) false true k).
    { unfold verdict_body. simpl. apply Z.eqb_eq in Hp. by rewrite Hp. }
    by rewrite Hstep, verdict_finished.
Qed.

Lemma verdict_kernel_rejected bonus w o k :
    k < w -> accepted_prefix tok acc k ->
    tok k <> PLACEHOLDER_TOKEN_ID -> acc k = false ->
    verdict_kernel tok acc rep base bonus w o
    = store (accept_writes tok base k o) (base + k) (rep k).
Proof.
    intros Hk Hacc Hp Ha. unfold verdict_kernel.
    rewrite (seq_split k w Hk), fold_left_app, verdict_accepting by done.
    cbn [fold_left].
    assert (Hstep : verdict_body tok acc rep base
                      (mkScan (accept_writes tok base k o) false false k) k
                    = mkScan (store (accept_writes tok base k o) (base + k) (rep k))
                             true true (k + 1)).
    { unfold verdict_body. simpl. apply Z.eqb_neq in Hp. by rewrite Hp, Ha. }
    by rewrite Hstep, verdict_finished.
Qed.

  (** In every case: a run of accepted draft tokens, then one more cell,
    which holds the bonus token unless position [k] was rejected. *)
Lemma verdict_kernel_shape bonus w o :
    exists k v, k <= w /\ accepted_prefix tok acc k
      /\ (k < w -> tok k = PLACEHOLDER_TOKEN_ID \/ acc k = false)
      /\ (v = bonus /\ (k < w -> tok k = PLACEHOLDER_TOKEN_ID)
          \/ k < w /\ tok k <> PLACEHOLDER_TOKEN_ID /\ acc k = false
             /\ v = rep k)
      /\ verdict_kernel tok acc rep base bonus w o
         = store (accept_writes tok base k o) (base + k) v.
Proof.
    destruct (first_stop w) as (k & Hk & Hacc & Hstop).
    destruct (decide (k = w)) as [->|Hne].
    { exists w, bonus. split; [lia|]. split; [done|]. split; [done|].
      split; [left; split; [done|lia] |]. by apply verdict_kernel_full. }
    destruct (decide (tok k = PLACEHOLDER_TOKEN_ID)) as [Hp|Hp].
    { exists k, bonus. split; [lia|]. split; [done|]. split; [done|].
      split; [by left |].
      apply verdict_kernel_placeholder; [lia|done|done]. }
    destruct Hstop as [?|Ha]; [lia|done|].
    exists k, (rep k). split; [lia|]. split; [done|]. split; [by right|].
    split; [right; repeat split; [lia|done..] |].
    apply verdict_kernel_rejected; [lia|done..].
Qed.

(** The first stop is unique. *)
Lemma accepted_prefix_le k k' w :
    accepted_prefix tok acc k -> k' <= w ->
    (k' < w -> tok k' = PLACEHOLDER_TOKEN_ID \/ acc k' = false) ->
    k <= w -> k <= k'.
Proof.
    intros Hacc Hk' Hstop Hk.
    destruct (decide (k <= k')) as [|Hgt]; [done|].
    destruct (Hacc k') as [Hp Ha]; [lia|].
    destruct Hstop as [?|?]; [lia|done|congruence].
Qed.

(** The row of the output after the scan, cell by cell. *)
Lemma verdict_kernel_cells bonus w o :
    base + w + 1 <= length o ->
    exists k v, k <= w /\ accepted_prefix tok acc k
      /\ (k < w -> tok k = PLACEHOLDER_TOKEN_ID \/ acc k = false)
      /\ (v = bonus /\ (k < w -> tok k = PLACEHOLDER_TOKEN_ID)
          \/ k < w /\ tok k <> PLACEHOLDER_TOKEN_ID /\ acc k = false
             /\ v = rep k)
      /\ length (verdict_kernel tok acc rep base bonus w o) = length o
      /\ (forall q, q < k ->
            load 0%Z (verdict_kernel tok acc rep base bonus w o) (base + q)
            = tok q)
      /\ load 0%Z (verdict_kernel tok acc rep base bonus w o) (base + k) = v
      /\ (forall i, i < base \/ base + k < i ->
            verdict_kernel tok acc rep base bonus w o !! i = o !! i).
Proof.
    intros Hlen.
    destruct (verdict_kernel_shape bonus w o) as (k & v & Hk & Hacc & Hstop & Hv & ->).
    exists k, v. repeat (split; [done|]).
    split; [by rewrite length_store, length_accept_writes|].
    split; [|split].
    - intros q Hq. rewrite load_store_ne by lia.
      apply accept_writes_inside; lia.
    - apply load_store_eq. rewrite length_accept_writes. lia.
    - intros i Hi. rewrite lookup_store_ne by lia.
      apply accept_writes_outside. lia.
Qed.
End VerdictFacts.

(** ** The two kernels are instances of the scan *)

Lemma row_in_range (batch_size w seq_idx : nat) :
  seq_idx < batch_size ->
  seq_idx * (w + 1) + w + 1 <= batch_size * (w + 1).
Proof. intros Hs. nia. Qed.

Lemma greedy_kernel_verdict draft_token_ids target_argmax bonus_token_ids
    is_greedy max_spec_len o seq_idx :
  rejection_greedy_sample_kernel draft_token_ids target_argmax bonus_token_ids
    is_greedy max_spec_len o seq_idx
  = if negb (load false is_greedy seq_idx) then o
    else verdict_kernel
           (fun p => load 0%Z draft_token_ids (seq_idx * max_spec_len + p))
           (greedy_accepts draft_token_ids target_argmax max_spec_len seq_idx)
           (fun p => load 0%Z target_argmax (seq_idx * max_spec_len + p))
           (seq_idx * (max_spec_len + 1))
           (load 0%Z bonus_token_ids seq_idx) max_spec_len o.
Proof. reflexivity. Qed.

Lemma random_kernel_verdict {T : Type} `{Arith T} draft_token_ids
    (draft_probs : option (list T)) target_probs bonus_token_ids
    recovered_token_ids uniform_probs is_greedy max_spec_len vocab_size
    IS_NGRAM o seq_idx :
  rejection_random_sample_kernel draft_token_ids draft_probs target_probs
    bonus_token_ids recovered_token_ids uniform_probs is_greedy max_spec_len
    vocab_size IS_NGRAM o seq_idx
  = if load false is_greedy seq_idx then o
    else verdict_kernel
           (fun p => load 0%Z draft_token_ids (seq_idx * max_spec_len + p))
           (random_accepts draft_token_ids draft_probs target_probs
              uniform_probs max_spec_len vocab_size IS_NGRAM seq_idx)
           (fun p => load 0%Z recovered_token_ids (seq_idx * max_spec_len + p))
           (seq_idx * (max_spec_len + 1))
           (load 0%Z bonus_token_ids seq_idx) max_spec_len o.
Proof. reflexivity. Qed.

Lemma random_body_verdict {T : Type} `{Arith T} draft_token_ids
    (draft_probs : option (list T)) target_probs recovered_token_ids
    uniform_probs max_spec_len vocab_size IS_NGRAM seq_idx :
  random_body draft_token_ids draft_probs target_probs recovered_token_ids
    uniform_probs max_spec_len vocab_size IS_NGRAM seq_idx
  = verdict_body
      (fun p => load 0%Z draft_token_ids (seq_idx * max_spec_len + p))
      (random_accepts draft_token_ids draft_probs target_probs
         uniform_probs max_spec_len vocab_size IS_NGRAM seq_idx)
      (fun p => load 0%Z recovered_token_ids (seq_idx * max_spec_len + p))
      (seq_idx * (max_spec_len + 1)).
Proof. reflexivity. Qed.

(** ** The greedy verifier *)

(** C1.  In a greedy row, let [p] be the first position that holds a
    placeholder or whose drafted token differs from the target arg-max
    (every earlier position holds a real token equal to the arg-max).  The
    kernel writes the drafted tokens at the positions before [p]; if [p] is
    a mismatch it holds the target arg-max, which is not the drafted token;
    and no cell after position [p], in this row or elsewhere, is written. *)
Theorem greedy_scan_stops_at_first_mismatch
    (draft_token_ids target_argmax bonus_token_ids : list Z)
    (is_greedy : list bool) (max_spec_len batch_size : nat)
    (o : list Z) (seq_idx p : nat) :
  length o = batch_size * (max_spec_len + 1) ->
  seq_idx < batch_size ->
  load false is_greedy seq_idx = true ->
  p < max_spec_len ->
  (forall q, q < p ->
     load 0%Z draft_token_ids (seq_idx * max_spec_len + q)
       <> PLACEHOLDER_TOKEN_ID
     /\ load 0%Z draft_token_ids (seq_idx * max_spec_len + q)
        = load 0%Z target_argmax (seq_idx * max_spec_len + q)) ->
  (load 0%Z draft_token_ids (seq_idx * max_spec_len + p) = PLACEHOLDER_TOKEN_ID
   \/ load 0%Z draft_token_ids (seq_idx * max_spec_len + p)
      <> load 0%Z target_argmax (seq_idx * max_spec_len + p)) ->
  let o' := rejection_greedy_sample_kernel draft_token_ids target_argmax
              bonus_token_ids is_greedy max_spec_len o seq_idx in
  (forall q, q < p ->
     load 0%Z o' (seq_idx * (max_spec_len + 1) + q)
     = load 0%Z draft_token_ids (seq_idx * max_spec_len + q))
  /\ (load 0%Z draft_token_ids (seq_idx * max_spec_len + p)
        <> PLACEHOLDER_TOKEN_ID ->
      load 0%Z o' (seq_idx * (max_spec_len + 1) + p)
        = load 0%Z target_argmax (seq_idx * max_spec_len + p)
      /\ load 0%Z o' (seq_idx * (max_spec_len + 1) + p)
         <> load 0%Z draft_token_ids (seq_idx * max_spec_len + p))
  /\ (forall i, i < seq_idx * (max_spec_len + 1)
                \/ seq_idx * (max_spec_len + 1) + p < i ->
        o' !! i = o !! i).
Proof.
  intros Hlen Hseq Hg Hp Hprefix Hstop o'. subst o'.
  rewrite greedy_kernel_verdict, Hg. simpl negb. cbv iota.
  pose proof (row_in_range batch_size max_spec_len seq_idx Hseq) as Hrow.
  set (tok := fun p => load 0%Z draft_token_ids (seq_idx * max_spec_len + p)).
  set (acc := greedy_accepts draft_token_ids target_argmax max_spec_len seq_idx).
  set (rep := fun p => load 0%Z target_argmax (seq_idx * max_spec_len + p)).
  assert (Hacc : accepted_prefix tok acc p).
  { intros q Hq. destruct (Hprefix q Hq) as [Hne Heq]. split; [done|].
    unfold acc, greedy_accepts. by apply Z.eqb_eq. }
  destruct (decide (tok p = PLACEHOLDER_TOKEN_ID)) as [Hph|Hph].
  - rewrite (verdict_kernel_placeholder tok acc rep _ _ _ o p Hp Hacc Hph).
    split; [|split].
    + intros q Hq. rewrite load_store_ne by lia.
      apply (accept_writes_inside tok); lia.
    + intros Hne. by destruct Hne.
    + intros i Hi. rewrite lookup_store_ne by lia.
      apply accept_writes_outside. lia.
  - destruct Hstop as [Hs|Hs]; [done|].
    assert (Ha : acc p = false).
    { unfold acc, greedy_accepts. by apply Z.eqb_neq. }
    rewrite (verdict_kernel_rejected tok acc rep _ _ _ o p Hp Hacc Hph Ha).
    split; [|split].
    + intros q Hq. rewrite load_store_ne by lia.
      apply (accept_writes_inside tok); lia.
    + intros _. rewrite load_store_eq by (rewrite length_accept_writes; lia).
      split; [done|]. unfold rep. congruence.
    + intros i Hi. rewrite lookup_store_ne by lia.
      apply accept_writes_outside. lia.
Qed.

(** The scenario of the specification: draft [5, 7], arg-max [5, 9], bonus
    42: the row is [5, 9] and the bonus token is not appended. *)
Example greedy_scenario_rejected :
  parse_output
    (tolist 1 3
       (rejection_greedy_sample_kernel [5; 7]%Z [5; 9]%Z [42]%Z [true] 2
          (replicate 3 PLACEHOLDER_TOKEN_ID) 0))
  = [[5; 9]%Z].
Proof. reflexivity. Qed.

Example greedy_scenario_accepted :
  parse_output
    (tolist 1 3
       (rejection_greedy_sample_kernel [5; 7]%Z [5; 7]%Z [42]%Z [true] 2
          (replicate 3 PLACEHOLDER_TOKEN_ID) 0))
  = [[5; 7; 42]%Z].
Proof. reflexivity. Qed.

Lemma greedy_scan_stops_at_first_mismatch_witness :
  let o' := rejection_greedy_sample_kernel [5; 7]%Z [5; 9]%Z [42]%Z [true] 2
              (replicate 3 PLACEHOLDER_TOKEN_ID) 0 in
  (forall q, q < 1 -> load 0%Z o' (0 * (2 + 1) + q)
                      = load 0%Z [5; 7]%Z (0 * 2 + q))
  /\ (load 0%Z [5; 7]%Z (0 * 2 + 1) <> PLACEHOLDER_TOKEN_ID ->
      load 0%Z o' (0 * (2 + 1) + 1) = load 0%Z [5; 9]%Z (0 * 2 + 1)
      /\ load 0%Z o' (0 * (2 + 1) + 1) <> load 0%Z [5; 7]%Z (0 * 2 + 1))
  /\ (forall i, i < 0 * (2 + 1) \/ 0 * (2 + 1) + 1 < i ->
        o' !! i = replicate 3 PLACEHOLDER_TOKEN_ID !! i).
Proof.
  apply (greedy_scan_stops_at_first_mismatch
           [5; 7]%Z [5; 9]%Z [42]%Z [true] 2 1
           (replicate 3 PLACEHOLDER_TOKEN_ID) 0 1).
  - reflexivity.
  - lia.
  - reflexivity.
  - lia.
  - intros q Hq. assert (q = 0) as -> by lia.
    split; [discriminate | reflexivity].
  - right. discriminate.
Defined.

(** ** The random verifier *)

(** The state of the scan after positions 0 .. p, when the positions
    before [p] were accepted and [p] holds a real token. *)
Lemma verdict_after_position tok acc rep base o p :
  accepted_prefix tok acc p -> tok p <> PLACEHOLDER_TOKEN_ID ->
  fold_left (verdict_body tok acc rep base) (seq 0 (S p)) (scan_init o)
  = if acc p then
      mkScan (store (accept_writes tok base p o) (base + p) (tok p))
             false false (p + 1)
    else
      mkScan (store (accept_writes tok base p o) (base + p) (rep p))
             true true (p + 1).
Proof.
  intros Hacc Hp. rewrite seq_S, fold_left_app, verdict_accepting by done.
  simpl. unfold verdict_body. simpl.
  apply Z.eqb_neq in Hp. rewrite Hp. by destruct (acc p).
Qed.

(** C2.  In a random row, at a position [p] the scan reaches (every
    earlier position accepted) that holds a real token, the drafted token is
    accepted exactly when [target_prob / draft_prob >= uniform_prob], with
    [draft_prob] the literal 1 when IS_NGRAM.  If accepted, the drafted
    token is written at [p] and the scan goes on (not finished, not
    rejected); otherwise the recovered token stored for this row and
    position is written at [p], the row is rejected and finished, and no
    cell after [p] is written. *)
Theorem random_accept_iff_ratio {T : Type} `{Arith T}
    (draft_token_ids : list Z) (draft_probs : option (list T))
    (target_probs : list T) (bonus_token_ids recovered_token_ids : list Z)
    (uniform_probs : list T) (is_greedy : list bool)
    (max_spec_len vocab_size batch_size : nat) (IS_NGRAM : bool)
    (o : list Z) (seq_idx p : nat) :
  length o = batch_size * (max_spec_len + 1) ->
  seq_idx < batch_size ->
  load false is_greedy seq_idx = false ->
  p < max_spec_len ->
  (forall q, q < p ->
     load 0%Z draft_token_ids (seq_idx * max_spec_len + q)
       <> PLACEHOLDER_TOKEN_ID
     /\ random_accepts draft_token_ids draft_probs target_probs uniform_probs
          max_spec_len vocab_size IS_NGRAM seq_idx q = true) ->
  load 0%Z draft_token_ids (seq_idx * max_spec_len + p)
    <> PLACEHOLDER_TOKEN_ID ->
  let token_id := load 0%Z draft_token_ids (seq_idx * max_spec_len + p) in
  let draft_prob :=
    if IS_NGRAM then fof_Z 1
    else load_at (fof_Z 0) (default [] draft_probs)
           (seq_idx * max_spec_len * vocab_size + p * vocab_size) token_id in
  let target_prob :=
    load_at (fof_Z 0) target_probs
      (seq_idx * max_spec_len * vocab_size + p * vocab_size) token_id in
  let uniform_prob :=
    load (fof_Z 0) uniform_probs (seq_idx * max_spec_len + p) in
  let s := fold_left
             (random_body draft_token_ids draft_probs target_probs
                recovered_token_ids uniform_probs max_spec_len vocab_size
                IS_NGRAM seq_idx)
             (seq 0 (S p)) (scan_init o) in
  let o' := rejection_random_sample_kernel draft_token_ids draft_probs
              target_probs bonus_token_ids recovered_token_ids uniform_probs
              is_greedy max_spec_len vocab_size IS_NGRAM o seq_idx in
  if fgeb (fdiv target_prob draft_prob) uniform_prob then
    rejected s = false /\ finished s = false /\ num_generated s = p + 1
    /\ load 0%Z (out s) (seq_idx * (max_spec_len + 1) + p) = token_id
    /\ load 0%Z o' (seq_idx * (max_spec_len + 1) + p) = token_id
  else
    rejected s = true /\ finished s = true
    /\ load 0%Z (out s) (seq_idx * (max_spec_len + 1) + p)
       = load 0%Z recovered_token_ids (seq_idx * max_spec_len + p)
    /\ o' = out s
    /\ (forall i, seq_idx * (max_spec_len + 1) + p < i -> o' !! i = o !! i).
Proof.
  intros Hlen Hseq Hg Hp Hprefix Hreal token_id draft_prob target_prob
         uniform_prob s o'.
  pose proof (row_in_range batch_size max_spec_len seq_idx Hseq) as Hrow.
  subst s o'. rewrite random_kernel_verdict, Hg, random_body_verdict.
  set (tok := fun p => load 0%Z draft_token_ids (seq_idx * max_spec_len + p)).
  set (acc := random_accepts draft_token_ids draft_probs target_probs
                uniform_probs max_spec_len vocab_size IS_NGRAM seq_idx).
  set (rep := fun p => load 0%Z recovered_token_ids (seq_idx * max_spec_len + p)).
  set (base := seq_idx * (max_spec_len + 1)).
  assert (Hacc : accepted_prefix tok acc p) by exact Hprefix.
  rewrite (verdict_after_position tok acc rep base o p Hacc Hreal).
  change (fgeb (fdiv target_prob draft_prob) uniform_prob) with (acc p).
  destruct (acc p) eqn:Ha; simpl.
  - repeat (split; [done|]).
    split.
    { apply load_store_eq. rewrite length_accept_writes. lia. }
    destruct (verdict_kernel_cells tok acc rep base
                (load 0%Z bonus_token_ids seq_idx) max_spec_len o)
      as (k & v & Hk & Hacck & Hstop & _ & _ & Hin & _); [lia|].
    assert (Hacc' : accepted_prefix tok acc (S p)).
    { intros q Hq. destruct (decide (q = p)) as [->|]; [done|].
      apply Hacc. lia. }
    pose proof (accepted_prefix_le tok acc (S p) k max_spec_len Hacc' Hk Hstop
                  ltac:(lia)) as Hle.
    apply (Hin p). lia.
  - repeat (split; [done|]).
    split.
    { apply load_store_eq. rewrite length_accept_writes. lia. }
    rewrite (verdict_kernel_rejected tok acc rep base _ _ o p Hp Hacc Hreal Ha).
    split; [done|].
    intros i Hi. rewrite lookup_store_ne by lia.
    apply accept_writes_outside. lia.
Qed.

Lemma random_accept_iff_ratio_witness :
  let draft_token_ids := [5; 7]%Z in
  let target_probs : list Q :=
    replicate 5 0%Q ++ [9 # 10]%Q ++ replicate 9 0%Q ++ [1 # 10]%Q in
  let uniform_probs := [1 # 2; 1 # 2]%Q in
  let o := replicate 3 PLACEHOLDER_TOKEN_ID in
  let token_id := load 0%Z draft_token_ids (0 * 2 + 1) in
  let draft_prob :=
    if true then fof_Z 1
    else load_at (fof_Z 0) (default [] None) (0 * 2 * 8 + 1 * 8) token_id in
  let target_prob := load_at (fof_Z 0) target_probs (0 * 2 * 8 + 1 * 8) token_id in
  let uniform_prob := load (fof_Z 0) uniform_probs (0 * 2 + 1) in
  let s := fold_left
             (random_body draft_token_ids None target_probs [3; 4]%Z
                uniform_probs 2 8 true 0)
             (seq 0 2) (scan_init o) in
  let o' := rejection_random_sample_kernel draft_token_ids None target_probs
              [42]%Z [3; 4]%Z uniform_probs [false] 2 8 true o 0 in
  if fgeb (fdiv target_prob draft_prob) uniform_prob then
    rejected s = false /\ finished s = false /\ num_generated s = 1 + 1
    /\ load 0%Z (out s) (0 * (2 + 1) + 1) = token_id
    /\ load 0%Z o' (0 * (2 + 1) + 1) = token_id
  else
    rejected s = true /\ finished s = true
    /\ load 0%Z (out s) (0 * (2 + 1) + 1) = load 0%Z [3; 4]%Z (0 * 2 + 1)
    /\ o' = out s
    /\ (forall i, 0 * (2 + 1) + 1 < i -> o' !! i = o !! i).
Proof.
  apply (random_accept_iff_ratio (T := Q)
           [5; 7]%Z None
           (replicate 5 0%Q ++ [9 # 10]%Q ++ replicate 9 0%Q ++ [1 # 10]%Q)
           [42]%Z [3; 4]%Z [1 # 2; 1 # 2]%Q [false] 2 8 1 true
           (replicate 3 PLACEHOLDER_TOKEN_ID) 0 1).
  - reflexivity.
  - lia.
  - reflexivity.
  - lia.
  - intros q Hq. assert (q = 0) as -> by lia.
    split; [discriminate | reflexivity].
  - discriminate.
Defined.

(** ** Rows without rejection *)

Lemma row_length {A} (w : nat) (mem : list A) (r : nat) :
  r * w + w <= length mem -> length (row w mem r) = w.
Proof. intros Hr. unfold row. rewrite length_take, length_drop. lia. Qed.

Lemma row_lookup {A} (w : nat) (mem : list A) (r j : nat) :
  j < w -> row w mem r !! j = mem !! (r * w + j).
Proof. intros Hj. unfold row. by rewrite lookup_take_lt, lookup_drop. Qed.

Lemma load_row {A} (d : A) (w : nat) (mem : list A) (r j : nat) :
  j < w -> load d (row w mem r) j = load d mem (r * w + j).
Proof. intros Hj. unfold load. by rewrite row_lookup. Qed.

(** A row is determined by its cells. *)
Lemma row_eq_of_loads (w : nat) (mem l : list Z) (r : nat) :
  length l = w -> r * w + w <= length mem ->
  (forall j, j < w -> load 0%Z mem (r * w + j) = load 0%Z l j) ->
  row w mem r = l.
Proof.
  intros Hl Hr Hcells. apply list_eq. intros j.
  destruct (decide (j < w)) as [Hj|Hj].
  - rewrite row_lookup by done.
    specialize (Hcells j Hj). unfold load in Hcells.
    destruct (lookup_lt_is_Some_2 mem (r * w + j)) as [x Hx]; [lia|].
    destruct (lookup_lt_is_Some_2 l j) as [y Hy]; [lia|].
    rewrite Hx, Hy in Hcells |- *. simpl in Hcells. by subst.
  - rewrite !lookup_ge_None_2; [done|lia|].
    rewrite row_length by done. lia.
Qed.

Lemma parse_row_app (l1 l2 : list Z) :
  Forall (fun t => t <> PLACEHOLDER_TOKEN_ID) l1 ->
  parse_row (l1 ++ l2) = l1 ++ parse_row l2.
Proof.
  induction 1 as [|t l1 Ht _ IH]; simpl; [done|].
  apply Z.eqb_neq in Ht. by rewrite Ht, IH.
Qed.

Lemma parse_row_placeholders n : parse_row (replicate n PLACEHOLDER_TOKEN_ID) = [].
Proof. by destruct n. Qed.

Lemma load_app_l {A} (d : A) (l1 l2 : list A) j :
  j < length l1 -> load d (l1 ++ l2) j = load d l1 j.
Proof. intros Hj. unfold load. by rewrite lookup_app_l. Qed.

Lemma load_app_r {A} (d : A) (l1 l2 : list A) j :
  length l1 <= j -> load d (l1 ++ l2) j = load d l2 (j - length l1).
Proof. intros Hj. unfold load. by rewrite lookup_app_r. Qed.

Lemma length_draft_prefix d w s n : length (draft_prefix d w s n) = n.
Proof. unfold draft_prefix. by rewrite length_map, length_seq. Qed.

Lemma load_draft_prefix d w s n q :
  q < n -> load 0%Z (draft_prefix d w s n) q = load 0%Z d (s * w + q).
Proof.
  intros Hq. unfold draft_prefix, load at 1.
  rewrite list_lookup_fmap, lookup_seq_lt by done. done.
Qed.

(** The row a scan leaves when it accepts [k] tokens and then writes [v],
    on a row that was blank. *)
Lemma written_row tok base_row w (o : list Z) (k : nat) (v : Z) l :
  k <= w -> base_row * (w + 1) + w + 1 <= length o ->
  blank_row o w base_row ->
  length l = k -> (forall q, q < k -> load 0%Z l q = tok q) ->
  row (w + 1)
      (store (accept_writes tok (base_row * (w + 1)) k o)
             (base_row * (w + 1) + k) v) base_row
  = l ++ [v] ++ replicate (w - k) PLACEHOLDER_TOKEN_ID.
Proof.
  intros Hk Hlen Hblank Hl Hcells. apply row_eq_of_loads.
  - rewrite !length_app, length_replicate, Hl. simpl. lia.
  - rewrite length_store, length_accept_writes. lia.
  - intros j Hj.
    destruct (decide (j < k)) as [Hjk|Hjk].
    { rewrite load_store_ne by lia.
      rewrite (accept_writes_inside tok) by lia.
      rewrite load_app_l by lia. by rewrite Hcells. }
    rewrite load_app_r by lia. rewrite Hl.
    destruct (decide (j = k)) as [->|Hne].
    { rewrite load_store_eq by (rewrite length_accept_writes; lia).
      by replace (k - k) with 0 by lia. }
    rewrite load_store_ne by lia.
    rewrite (load_lookup _ o) by (apply accept_writes_outside; lia).
    rewrite Hblank by lia.
    rewrite (load_app_r _ [v]) by (simpl; lia).
    unfold load. by rewrite lookup_replicate_2 by (simpl; lia).
Qed.

(** C3.  A row of the draft matrix that holds a draft of length [n], on a
    blank output row, verified by the kernel its mode selects (greedy or
    random): if every drafted token is accepted, the output row is the [n]
    drafted tokens, then the bonus token, then placeholders.  The bonus
    token is at index [n] (index 0 for an empty draft), and, the bonus token
    being a real token, the extracted row has length [n + 1] and ends with
    it. *)
Theorem accepted_row_ends_with_bonus {T : Type} `{Arith T}
    (draft_token_ids target_argmax : list Z) (draft_probs : option (list T))
    (target_probs : list T) (bonus_token_ids recovered_token_ids : list Z)
    (uniform_probs : list T) (is_greedy : list bool)
    (max_spec_len vocab_size batch_size : nat) (IS_NGRAM : bool)
    (o : list Z) (seq_idx n : nat) :
  length o = batch_size * (max_spec_len + 1) ->
  seq_idx < batch_size ->
  blank_row o max_spec_len seq_idx ->
  draft_length draft_token_ids max_spec_len seq_idx n ->
  (forall q, q < n ->
     (if load false is_greedy seq_idx
      then greedy_accepts draft_token_ids target_argmax max_spec_len seq_idx q
      else random_accepts draft_token_ids draft_probs target_probs
             uniform_probs max_spec_len vocab_size IS_NGRAM seq_idx q)
     = true) ->
  let o' :=
    if load false is_greedy seq_idx
    then rejection_greedy_sample_kernel draft_token_ids target_argmax
           bonus_token_ids is_greedy max_spec_len o seq_idx
    else rejection_random_sample_kernel draft_token_ids draft_probs
           target_probs bonus_token_ids recovered_token_ids uniform_probs
           is_greedy max_spec_len vocab_size IS_NGRAM o seq_idx in
  let bonus := load 0%Z bonus_token_ids seq_idx in
  let drafted := draft_prefix draft_token_ids max_spec_len seq_idx n in
  row (max_spec_len + 1) o' seq_idx
  = drafted ++ [bonus] ++ replicate (max_spec_len - n) PLACEHOLDER_TOKEN_ID
  /\ load 0%Z o' (seq_idx * (max_spec_len + 1) + n) = bonus
  /\ (bonus <> PLACEHOLDER_TOKEN_ID ->
      parse_row (row (max_spec_len + 1) o' seq_idx) = drafted ++ [bonus]
      /\ length (parse_row (row (max_spec_len + 1) o' seq_idx)) = n + 1
      /\ last (parse_row (row (max_spec_len + 1) o' seq_idx)) = Some bonus).
Proof.
  intros Hlen Hseq Hblank (Hn & Hreal & Hend) Hall o' bonus drafted.
  pose proof (row_in_range batch_size max_spec_len seq_idx Hseq) as Hrow.
  set (tok := fun p => load 0%Z draft_token_ids (seq_idx * max_spec_len + p)).
  set (base := seq_idx * (max_spec_len + 1)).
  assert (Hshape : exists acc rep,
             accepted_prefix tok acc n
             /\ o' = verdict_kernel tok acc rep base bonus max_spec_len o).
  { subst o'. destruct (load false is_greedy seq_idx) eqn:Hg.
    - eexists _, _. split; [|rewrite greedy_kernel_verdict, Hg; reflexivity].
      intros q Hq. split; [by apply Hreal | by apply Hall].
    - eexists _, _. split; [|rewrite random_kernel_verdict, Hg; reflexivity].
      intros q Hq. split; [by apply Hreal | by apply Hall]. }
  destruct Hshape as (acc & rep & Hacc & Ho').
  assert (Hstore : o' = store (accept_writes tok base n o) (base + n) bonus).
  { rewrite Ho'. destruct (decide (n = max_spec_len)) as [->|Hne].
    - by apply verdict_kernel_full.
    - apply verdict_kernel_placeholder; [lia|done|]. apply Hend. lia. }
  assert (Hroweq : row (max_spec_len + 1) o' seq_idx
            = drafted ++ [bonus]
              ++ replicate (max_spec_len - n) PLACEHOLDER_TOKEN_ID).
  { rewrite Hstore. apply (written_row tok seq_idx max_spec_len o n bonus).
    - done.
    - lia.
    - done.
    - apply length_draft_prefix.
    - intros q Hq. by apply load_draft_prefix. }
  split; [done|]. split.
  { rewrite Hstore. apply load_store_eq. rewrite length_accept_writes.
    unfold base. lia. }
  intros Hbonus. rewrite Hroweq.
  assert (Hparse : parse_row (drafted ++ [bonus]
                      ++ replicate (max_spec_len - n) PLACEHOLDER_TOKEN_ID)
                   = drafted ++ [bonus]).
  { rewrite parse_row_app.
    - simpl. apply Z.eqb_neq in Hbonus. rewrite Hbonus.
      by rewrite parse_row_placeholders.
    - unfold drafted, draft_prefix. apply Forall_forall.
      intros x Hx. apply list_elem_of_fmap in Hx as (q & -> & Hq).
      apply elem_of_seq in Hq. apply Hreal. lia. }
  rewrite Hparse. split; [done|]. split.
  - rewrite length_app. unfold drafted.
    rewrite length_draft_prefix. simpl. lia.
  - apply last_snoc.
Qed.

Lemma accepted_row_ends_with_bonus_witness :
  let o' :=
    if load false [true] 0
    then rejection_greedy_sample_kernel [5; 7]%Z [5; 7]%Z [42]%Z [true] 2
           (replicate 3 PLACEHOLDER_TOKEN_ID) 0
    else rejection_random_sample_kernel (T := Q) [5; 7]%Z None [] [42]%Z []
           [] [true] 2 8 true (replicate 3 PLACEHOLDER_TOKEN_ID) 0 in
  let bonus := load 0%Z [42]%Z 0 in
  let drafted := draft_prefix [5; 7]%Z 2 0 2 in
  row (2 + 1) o' 0
  = drafted ++ [bonus] ++ replicate (2 - 2) PLACEHOLDER_TOKEN_ID
  /\ load 0%Z o' (0 * (2 + 1) + 2) = bonus
  /\ (bonus <> PLACEHOLDER_TOKEN_ID ->
      parse_row (row (2 + 1) o' 0) = drafted ++ [bonus]
      /\ length (parse_row (row (2 + 1) o' 0)) = 2 + 1
      /\ last (parse_row (row (2 + 1) o' 0)) = Some bonus).
Proof.
  apply (accepted_row_ends_with_bonus (T := Q)
           [5; 7]%Z [5; 7]%Z None [] [42]%Z [] [] [true] 2 8 1 true
           (replicate 3 PLACEHOLDER_TOKEN_ID) 0 2).
  - reflexivity.
  - lia.
  - intros j Hj. destruct j as [|[|[|j]]]; [reflexivity..|lia].
  - split; [lia|]. split; [|lia].
    intros q Hq. destruct q as [|[|q]]; [discriminate..|lia].
  - intros q Hq. destruct q as [|[|q]]; [reflexivity..|lia].
Defined.

(** An empty draft: the bonus token is written at index 0. *)
Example empty_draft_gets_bonus :
  rejection_greedy_sample_kernel
    [PLACEHOLDER_TOKEN_ID; PLACEHOLDER_TOKEN_ID] [0; 0]%Z [42]%Z [true] 2
    (replicate 3 PLACEHOLDER_TOKEN_ID) 0
  = [42%Z; PLACEHOLDER_TOKEN_ID; PLACEHOLDER_TOKEN_ID].
Proof. reflexivity. Qed.

(** ** A launch over the rows of the output *)

Lemma blank_row_same w o o' r :
  same_row w o o' r -> blank_row o w r -> blank_row o' w r.
Proof. intros Hs Hb j Hj. rewrite Hs by done. by apply Hb. Qed.

Lemma prefix_closed_row_same w o o' r :
  same_row w o o' r -> prefix_closed_row o w r -> prefix_closed_row o' w r.
Proof.
  intros Hs Hc p p' Hp Hp' Hph. rewrite Hs in Hph |- * by lia.
  by apply (Hc p p').
Qed.

Lemma blank_row_prefix_closed w o r : blank_row o w r -> prefix_closed_row o w r.
Proof. intros Hb p p' _ Hp' _. by apply Hb. Qed.

Lemma blank_row_replicate n w r :
  r * (w + 1) + w + 1 <= n ->
  blank_row (replicate n PLACEHOLDER_TOKEN_ID) w r.
Proof.
  intros Hn j Hj. unfold load. by rewrite lookup_replicate_2 by lia.
Qed.

Section LaunchRows.
Variables (w batch_size : nat).
Variable active : nat -> bool.
Variables (tok : nat -> nat -> Z) (acc : nat -> nat -> bool) (rep : nat -> nat -> Z).
Variable bon : nat -> Z.
Variable K : list Z -> nat -> list Z.
Hypothesis K_scan : forall o i,
  K o i = if active i
          then verdict_kernel (tok i) (acc i) (rep i) (i * (w + 1)) (bon i) w o
          else o.

(** One program: it keeps the size, leaves the other rows alone, and
    turns a blank row into a contiguous prefix. *)
Lemma program_effect o i :
  length o = batch_size * (w + 1) -> i < batch_size ->
  length (K o i) = length o
  /\ (forall r, r <> i -> same_row w o (K o i) r)
  /\ (active i = false -> same_row w o (K o i) i)
  /\ (active i = true -> blank_row o w i -> prefix_closed_row (K o i) w i).
Proof.
  intros Hlen Hi. rewrite K_scan.
  pose proof (row_in_range batch_size w i Hi) as Hrow.
  destruct (active i); [|by repeat split].
  destruct (verdict_kernel_cells (tok i) (acc i) (rep i) (i * (w + 1)) (bon i) w o)
    as (k & v & Hk & Hacc & _ & _ & Hl & Hin & _ & Hout); [lia|].
  split; [done|]. split; [|split; [done|]].
  - intros r Hr j Hj. apply load_lookup, Hout.
    destruct (decide (r < i)); [left; nia | right; nia].
  - intros _ Hblank p p' Hp Hp' Hph.
    destruct (decide (p < k)) as [Hpk|Hpk].
    { rewrite Hin in Hph by done. by destruct (Hacc p Hpk). }
    rewrite (load_lookup _ o) by (apply Hout; lia). by apply Hblank.
Qed.

(** The launch, after the first [n] programs. *)
Lemma launch_prefix_rows o n :
  length o = batch_size * (w + 1) -> n <= batch_size ->
  (forall r, r < batch_size -> active r = true -> blank_row o w r) ->
  length (launch K n o) = length o
  /\ forall r, r < batch_size ->
       if (active r && (r <? n))%bool
       then prefix_closed_row (launch K n o) w r
       else same_row w o (launch K n o) r.
Proof.
  intros Hlen Hn Hblank. unfold launch.
  induction n as [|n IH].
  { split; [done|]. intros r Hr. rewrite andb_false_r. by intros j Hj. }
  destruct IH as [IHlen IHrows]; [lia|].
  rewrite seq_S, fold_left_app. simpl.
  set (o1 := fold_left K (seq 0 n) o) in *.
  destruct (program_effect o1 n) as (Hl & Hother & Hskip & Hact); [lia|lia|].
  split; [lia|]. intros r Hr.
  destruct (decide (r = n)) as [->|Hne].
  - specialize (IHrows n Hr).
    rewrite (proj2 (Nat.ltb_ge n n)) in IHrows by lia.
    rewrite andb_false_r in IHrows.
    rewrite (proj2 (Nat.ltb_lt n (S n))) by lia. rewrite andb_true_r.
    destruct (active n) eqn:Ha.
    + apply Hact; [done|]. apply (blank_row_same w o); [done|].
      by apply Hblank.
    + intros j Hj. rewrite Hskip by done. by apply IHrows.
  - specialize (IHrows r Hr).
    replace (r <? S n) with (r <? n).
    2:{ destruct (decide (r < n)).
        - rewrite !(proj2 (Nat.ltb_lt _ _)) by lia. done.
        - rewrite !(proj2 (Nat.ltb_ge _ _)) by lia. done. }
    destruct (active r && (r <? n))%bool.
    + by apply (prefix_closed_row_same w o1); [apply Hother|].
    + intros j Hj. rewrite Hother by done. by apply IHrows.
Qed.

Lemma launch_rows o :
  length o = batch_size * (w + 1) ->
  (forall r, r < batch_size -> active r = true -> blank_row o w r) ->
  length (launch K batch_size o) = length o
  /\ forall r, r < batch_size ->
       (active r = true -> prefix_closed_row (launch K batch_size o) w r)
       /\ (active r = false -> same_row w o (launch K batch_size o) r).
Proof.
  intros Hlen Hblank.
  destruct (launch_prefix_rows o batch_size Hlen ltac:(lia) Hblank) as [Hl Hrows].
  split; [done|]. intros r Hr. specialize (Hrows r Hr).
  rewrite (proj2 (Nat.ltb_lt r batch_size)) in Hrows by done.
  rewrite andb_true_r in Hrows.
  destruct (active r); split; intros; done.
Qed.
End LaunchRows.

(** ** The output matrix of rejection_sample *)

Lemma greedy_launch_rows (draft_token_ids target_argmax bonus_token_ids : list Z)
    (is_greedy : list bool) (max_spec_len batch_size : nat) (o : list Z) :
  length o = batch_size * (max_spec_len + 1) ->
  (forall r, r < batch_size -> load false is_greedy r = true ->
     blank_row o max_spec_len r) ->
  let o' := launch (rejection_greedy_sample_kernel draft_token_ids
                      target_argmax bonus_token_ids is_greedy max_spec_len)
                   batch_size o in
  length o' = length o
  /\ forall r, r < batch_size ->
       (load false is_greedy r = true -> prefix_closed_row o' max_spec_len r)
       /\ (load false is_greedy r = false -> same_row max_spec_len o o' r).
Proof.
  intros Hlen Hblank.
  apply (launch_rows max_spec_len batch_size
           (fun i => load false is_greedy i)
           (fun i p => load 0%Z draft_token_ids (i * max_spec_len + p))
           (greedy_accepts draft_token_ids target_argmax max_spec_len)
           (fun i p => load 0%Z target_argmax (i * max_spec_len + p))
           (fun i => load 0%Z bonus_token_ids i)); [|done..].
  intros o1 i. rewrite greedy_kernel_verdict.
  by destruct (load false is_greedy i).
Qed.

Lemma random_launch_rows {T : Type} `{Arith T} (draft_token_ids : list Z)
    (draft_probs : option (list T)) (target_probs : list T)
    (bonus_token_ids recovered_token_ids : list Z) (uniform_probs : list T)
    (is_greedy : list bool) (max_spec_len vocab_size batch_size : nat)
    (IS_NGRAM : bool) (o : list Z) :
  length o = batch_size * (max_spec_len + 1) ->
  (forall r, r < batch_size -> load false is_greedy r = false ->
     blank_row o max_spec_len r) ->
  let o' := launch (rejection_random_sample_kernel draft_token_ids draft_probs
                      target_probs bonus_token_ids recovered_token_ids
                      uniform_probs is_greedy max_spec_len vocab_size IS_NGRAM)
                   batch_size o in
  length o' = length o
  /\ forall r, r < batch_size ->
       (load false is_greedy r = false -> prefix_closed_row o' max_spec_len r)
       /\ (load false is_greedy r = true -> same_row max_spec_len o o' r).
Proof.
  intros Hlen Hblank.
  destruct (launch_rows max_spec_len batch_size
           (fun i => negb (load false is_greedy i))
           (fun i p => load 0%Z draft_token_ids (i * max_spec_len + p))
           (random_accepts draft_token_ids draft_probs target_probs
              uniform_probs max_spec_len vocab_size IS_NGRAM)
           (fun i p => load 0%Z recovered_token_ids (i * max_spec_len + p))
           (fun i => load 0%Z bonus_token_ids i)
           (rejection_random_sample_kernel draft_token_ids draft_probs
              target_probs bonus_token_ids recovered_token_ids
              uniform_probs is_greedy max_spec_len vocab_size IS_NGRAM)
           ) with (o := o) as [Hl Hrows].
  - intros o1 i. rewrite random_kernel_verdict.
    by destruct (load false is_greedy i).
  - done.
  - intros r Hr Ha. apply Hblank; [done|]. by apply negb_true_iff.
  - split; [done|]. intros r Hr. destruct (Hrows r Hr) as [H1 H2].
    split; intros Hg.
    + apply H1. by rewrite Hg.
    + apply H2. by rewrite Hg.
Qed.

(** C7.  Every row of the matrix [rejection_sample] returns is a contiguous
    prefix: if a position holds the placeholder, so does every later
    position of the row.  This holds for every setting of the [all_greedy]
    and [all_random] flags. *)
Theorem output_rows_are_contiguous_prefixes {T : Type} `{Arith T}
    (batch_size max_spec_len vocab_size : nat)
    (draft_token_ids : list Z) (num_draft_tokens : list nat)
    (draft_probs : option (list T)) (target_probs : list T)
    (bonus_token_ids : list Z) (sampling_metadata : SamplingMetadata T)
    (rand_default exp_default : list T) (r : nat) :
  r < batch_size ->
  prefix_closed_row
    (rejection_sample batch_size max_spec_len vocab_size draft_token_ids
       num_draft_tokens draft_probs target_probs bonus_token_ids
       sampling_metadata rand_default exp_default)
    max_spec_len r.
Proof.
  intros Hr. unfold rejection_sample.
  set (o0 := replicate (batch_size * (max_spec_len + 1)) PLACEHOLDER_TOKEN_ID).
  set (flags := is_greedy_of sampling_metadata).
  assert (Hlen0 : length o0 = batch_size * (max_spec_len + 1))
    by apply length_replicate.
  assert (Hblank0 : forall i, i < batch_size -> blank_row o0 max_spec_len i).
  { intros i Hi. apply blank_row_replicate.
    pose proof (row_in_range batch_size max_spec_len i Hi). lia. }
  (* the buffer after the greedy branch *)
  set (o1 := if negb (all_random sampling_metadata) then _ else o0).
  assert (H1 : length o1 = batch_size * (max_spec_len + 1)
               /\ forall i, i < batch_size ->
                    (load false flags i = true -> prefix_closed_row o1 max_spec_len i)
                    /\ (load false flags i = false -> blank_row o1 max_spec_len i)).
  { subst o1. destruct (all_random sampling_metadata); simpl.
    - split; [done|]. intros i Hi.
      split; intros _; [apply blank_row_prefix_closed|]; by apply Hblank0.
    - match goal with |- context [launch ?k _ _] => set (K := k) end.
      destruct (greedy_launch_rows draft_token_ids
                  (argmax_last vocab_size target_probs (batch_size * max_spec_len))
                  bonus_token_ids flags max_spec_len batch_size o0 Hlen0)
        as [Hl Hrows].
      { intros i Hi _. by apply Hblank0. }
      split; [subst K; lia|]. intros i Hi.
      destruct (Hrows i Hi) as [Hg Hn]. split; [done|].
      intros Hf. apply (blank_row_same max_spec_len o0); [by apply Hn|].
      by apply Hblank0. }
  destruct H1 as [Hlen1 Hrows1].
  destruct (negb (all_random sampling_metadata) && all_greedy sampling_metadata)%bool.
  { destruct (Hrows1 r Hr) as [Hg Hn].
    destruct (load false flags r); [by apply Hg|].
    apply blank_row_prefix_closed. by apply Hn. }
  match goal with
  | |- prefix_closed_row
         (launch (rejection_random_sample_kernel ?d ?dp ?tp ?b ?rec ?u ?f ?w ?v ?ng)
                 _ _) _ _ =>
      destruct (random_launch_rows d dp tp b rec u f w v batch_size ng o1 Hlen1)
        as [Hl Hrows]
  end.
  { intros i Hi Hf. by apply Hrows1. }
  destruct (Hrows r Hr) as [Hn Hg].
  destruct (load false flags r) eqn:Hf.
  - apply (prefix_closed_row_same max_spec_len o1); [by apply Hg|].
    by apply Hrows1.
  - by apply Hn.
Qed.

Lemma output_rows_are_contiguous_prefixes_witness :
  prefix_closed_row
    (rejection_sample (T := Q) 2 2 2 [1; 0; 0; PLACEHOLDER_TOKEN_ID]%Z [2; 1]
       None
       [1 # 4; 3 # 4; 1 # 2; 1 # 2; 3; 1; 0; 0]%Q
       [7; 8]%Z
       (mkSamplingMetadata [1; -1]%Q false false [])
       [1 # 2; 1 # 2; 1 # 2; 1 # 2]%Q [1; 1; 1; 1]%Q)
    2 0.
Proof.
  apply (output_rows_are_contiguous_prefixes (T := Q)). lia.
Defined.

(** ** Materializer and extractor *)

Lemma length_pad_row w ids : length ids <= w -> length (pad_row w ids) = w.
Proof.
  intros Hl. unfold pad_row. rewrite length_app, length_replicate. lia.
Qed.

Lemma parse_row_pad_row w ids :
  Forall (fun t => t <> PLACEHOLDER_TOKEN_ID) ids ->
  parse_row (pad_row w ids) = ids.
Proof.
  intros Hreal. unfold pad_row.
  by rewrite parse_row_app, parse_row_placeholders, app_nil_r.
Qed.

(** [copy_rows] fills, row after row, a region that holds placeholders. *)
Lemma copy_rows_padded w rows : forall i front back,
  length front = i * w ->
  Forall (fun ids => length ids <= w) rows ->
  copy_rows w i rows
    (front ++ replicate (length rows * w) PLACEHOLDER_TOKEN_ID ++ back)
  = front ++ concat (map (pad_row w) rows) ++ back.
Proof.
  induction rows as [|ids rest IH]; intros i front back Hfront Hlen; [done|].
  apply Forall_cons in Hlen as [Hids Hrest].
  simpl copy_rows. unfold write_slice.
  rewrite take_app_length' by done.
  rewrite drop_app_ge by lia.
  replace (i * w + length ids - length front) with (length ids) by lia.
  simpl length. replace (S (length rest) * w) with (w + length rest * w) by lia.
  rewrite replicate_add, <- !app_assoc.
  rewrite drop_app_le by (rewrite length_replicate; lia).
  rewrite drop_replicate.
  replace (front ++ ids ++ replicate (w - length ids) PLACEHOLDER_TOKEN_ID
             ++ replicate (length rest * w) PLACEHOLDER_TOKEN_ID ++ back)
    with ((front ++ pad_row w ids)
            ++ replicate (length rest * w) PLACEHOLDER_TOKEN_ID ++ back)
    by (unfold pad_row; by rewrite <- !app_assoc).
  rewrite (IH (S i)); [|rewrite length_app, length_pad_row; lia|done].
  simpl. by rewrite <- !app_assoc.
Qed.

(** The rows of a buffer made of chunks of one width are the chunks. *)
Lemma tolist_concat w (chunks : list (list Z)) :
  Forall (fun c => length c = w) chunks ->
  tolist (length chunks) w (concat chunks) = chunks.
Proof.
  unfold tolist. induction 1 as [|c chunks Hc _ IH]; [done|].
  simpl length. rewrite <- cons_seq, <- fmap_S_seq. simpl.
  f_equal.
  - unfold row. change (0 * w) with 0. rewrite drop_0.
    by rewrite take_app_length'.
  - transitivity (map (row w (concat chunks)) (seq 0 (length chunks)));
      [|exact IH].
    rewrite <- list_fmap_compose.
    apply list_fmap_ext. intros _ r _. unfold row, compose.
    replace (S r * w) with (length c + r * w) by lia.
    by rewrite <- drop_drop, drop_app_length.
Qed.

(** What [_async_copy_to_device] returns when the batch fits. *)
Lemma async_copy_to_device_ok max_num_tokens buffer draft_token_ids :
  draft_token_ids <> [] ->
  length buffer = max_num_tokens ->
  length draft_token_ids * max_list (map length draft_token_ids)
    <= max_num_tokens ->
  let w := max_list (map length draft_token_ids) in
  let m := concat (map (pad_row w) draft_token_ids) in
  async_copy_to_device max_num_tokens buffer draft_token_ids
  = inr (m ++ drop (length draft_token_ids * w) buffer, m)
  /\ tolist (length draft_token_ids) w m = map (pad_row w) draft_token_ids.
Proof.
  intros Hne Hbuf Hcap w m.
  assert (Hw : Forall (fun ids => length ids <= w) draft_token_ids).
  { apply Forall_forall. intros ids Hin. apply max_list_elem_of_le.
    apply list_elem_of_fmap. by exists ids. }
  split.
  - assert (Hmatch : forall (l : list nat) (x y : exn + (list Z * list Z)),
               l <> [] -> match l with [] => x | _ :: _ => y end = y)
      by (intros [|? ?] ? ? ?; done).
    unfold async_copy_to_device. cbv zeta.
    rewrite Hmatch by (destruct draft_token_ids; done).
    fold w.
    rewrite (proj2 (Nat.leb_le _ _)) by done. simpl negb. cbv iota.
    rewrite length_take, Nat.min_l by lia.
    pose proof (copy_rows_padded w draft_token_ids 0 [] [] eq_refl Hw) as Hc.
    simpl in Hc. rewrite !app_nil_r in Hc. by rewrite Hc.
  - subst m. rewrite <- (length_map (pad_row w)). apply tolist_concat.
    apply Forall_map. eapply Forall_impl; [exact Hw|].
    intros ids Hl. by apply length_pad_row.
Qed.

(** C9.  A batch of drafts of real tokens that fits the staging buffer is
    packed into the placeholder-padded matrix; on the all-accepted output
    built from that matrix and real bonus tokens, [parse_output] returns
    each original draft with its bonus token appended. *)
Theorem pack_extract_roundtrip (max_num_tokens : nat) (buffer : list Z)
    (draft_token_ids : list (list Z)) (bonus_token_ids : list Z) :
  draft_token_ids <> [] ->
  length buffer = max_num_tokens ->
  length draft_token_ids * max_list (map length draft_token_ids)
    <= max_num_tokens ->
  Forall (Forall (fun t => t <> PLACEHOLDER_TOKEN_ID)) draft_token_ids ->
  Forall (fun b => b <> PLACEHOLDER_TOKEN_ID) bonus_token_ids ->
  exists buffer' draft_token_ids_tensor,
    async_copy_to_device max_num_tokens buffer draft_token_ids
    = inr (buffer', draft_token_ids_tensor)
    /\ parse_output
         (all_accepted_output
            (tolist (length draft_token_ids)
                    (max_list (map length draft_token_ids))
                    draft_token_ids_tensor)
            bonus_token_ids)
       = zip_with (fun ids b => ids ++ [b]) draft_token_ids bonus_token_ids.
Proof.
  intros Hne Hbuf Hcap Hreal Hbonus.
  destruct (async_copy_to_device_ok max_num_tokens buffer draft_token_ids
              Hne Hbuf Hcap) as [Hcopy Hrows].
  eexists _, _. split; [exact Hcopy|].
  rewrite Hrows. clear Hcopy Hrows Hne Hcap.
  set (w := max_list (map length draft_token_ids)). clearbody w.
  unfold parse_output, all_accepted_output.
  revert bonus_token_ids Hbonus.
  induction Hreal as [|ids rest Hids _ IH]; intros bonus Hbonus; [done|].
  destruct Hbonus as [|b bonus Hb Hbonus]; [done|].
  simpl. f_equal; [|by apply IH].
  rewrite parse_row_pad_row by done.
  rewrite parse_row_app by done. simpl.
  apply Z.eqb_neq in Hb. rewrite Hb.
  by rewrite parse_row_placeholders.
Qed.

Lemma pack_extract_roundtrip_witness :
  exists buffer' draft_token_ids_tensor,
    async_copy_to_device 8 (replicate 8 0%Z) [[5; 7]; [3]]%Z
    = inr (buffer', draft_token_ids_tensor)
    /\ parse_output
         (all_accepted_output
            (tolist (length [[5; 7]; [3]]%Z)
                    (max_list (map length [[5; 7]; [3]]%Z))
                    draft_token_ids_tensor)
            [42; 43]%Z)
       = zip_with (fun ids b => ids ++ [b]) [[5; 7]; [3]]%Z [42; 43]%Z.
Proof.
  apply (pack_extract_roundtrip 8 (replicate 8 0%Z) [[5; 7]; [3]]%Z [42; 43]%Z).
  - discriminate.
  - reflexivity.
  - simpl. lia.
  - repeat constructor; discriminate.
  - repeat constructor; discriminate.
Defined.

Example pack_example :
  async_copy_to_device 8 (replicate 8 0%Z) [[5; 7]; [3]]%Z
  = inr ([5; 7; 3; -1; 0; 0; 0; 0]%Z, [5; 7; 3; -1]%Z).
Proof. reflexivity. Qed.

(** ** The two layouts of the target probabilities *)

Lemma load_cumsum_from lens : forall acc r,
  r < length lens ->
  load 0 (cumsum_from acc lens) r = acc + sum_list (take (S r) lens).
Proof.
  induction lens as [|n rest IH]; intros acc r Hr; simpl in Hr; [lia|].
  destruct r as [|r].
  - unfold load. simpl. lia.
  - change (load 0 (cumsum_from (acc + n) rest) r
            = acc + (n + sum_list (take (S r) rest))).
    rewrite IH by lia. lia.
Qed.

(** The slice of a request starts at the sum of the earlier lengths and has
    the request's length. *)
Lemma start_idx_cumsum lens r :
  r < length lens ->
  (if r =? 0 then 0 else load 0 (cu_num_draft_tokens_of lens) (r - 1))
  = sum_list (take r lens).
Proof.
  intros Hr. destruct r as [|r]; [by rewrite take_0|].
  simpl. rewrite Nat.sub_0_r. unfold cu_num_draft_tokens_of.
  rewrite load_cumsum_from by lia. lia.
Qed.

Lemma in_range_cumsum lens r pos :
  r < length lens ->
  in_range (cu_num_draft_tokens_of lens) r pos <-> pos < load 0 lens r.
Proof.
  intros Hr. unfold in_range. rewrite start_idx_cumsum by done.
  unfold cu_num_draft_tokens_of at 1. rewrite load_cumsum_from by done.
  destruct (lookup_lt_is_Some_2 lens r Hr) as [n Hn].
  rewrite (take_S_r _ _ _ Hn), sum_list_with_app. simpl.
  unfold load. rewrite Hn. simpl. lia.
Qed.

Lemma sum_list_le_max l w :
  Forall (fun n => n <= w) l -> sum_list l <= length l * w.
Proof. induction 1; simpl; lia. Qed.

Lemma sum_list_full l w :
  Forall (fun n => n <= w) l ->
  sum_list l = length l * w <-> Forall (fun n => n = w) l.
Proof.
  induction 1 as [|n l Hn Hl IH]; simpl.
  - split; [constructor | done].
  - pose proof (sum_list_le_max l w Hl). split.
    + intros Hs. assert (n = w) as -> by lia.
      constructor; [done|]. apply IH. lia.
    + intros Hf. apply Forall_cons in Hf as [-> Hf].
      apply IH in Hf. lia.
Qed.

Lemma Forall_le_max_list l : Forall (fun n => n <= max_list l) l.
Proof.
  apply Forall_forall. intros n Hn. by apply max_list_elem_of_le.
Qed.

(** Agreement at one (request, position): the earlier requests fill their
    rows. *)
Lemma offsets_agree_iff lens vocab_size r pos off :
  r < length lens -> 0 < vocab_size ->
  packed_offset (cu_num_draft_tokens_of lens) vocab_size r pos off
  = dense_offset (max_list lens) vocab_size r pos off
  <-> Forall (fun n => n = max_list lens) (take r lens).
Proof.
  intros Hr Hv. unfold packed_offset, dense_offset.
  rewrite start_idx_cumsum by done.
  assert (Hle : Forall (fun n => n <= max_list lens) (take r lens)).
  { apply Forall_take, Forall_le_max_list. }
  rewrite <- (sum_list_full _ _ Hle), length_take, Nat.min_l by lia.
  split; [|intros ->; lia].
  intros Heq.
  assert ((sum_list (take r lens) + pos) * vocab_size
          = (r * max_list lens + pos) * vocab_size) as Hm by lia.
  apply Nat.mul_cancel_r in Hm; lia.
Qed.

Lemma layouts_agree_of_earlier_rows_full num_draft_tokens vocab_size :
  0 < vocab_size ->
  (forall r j, r < length num_draft_tokens -> j < r ->
     0 < load 0 num_draft_tokens r ->
     load 0 num_draft_tokens j = max_list num_draft_tokens) ->
  layouts_agree num_draft_tokens vocab_size.
Proof.
  intros Hv Hfull r pos off Hr Hin Hoff.
  apply in_range_cumsum in Hin; [|done].
  apply offsets_agree_iff; [done..|].
  apply Forall_lookup. intros j n Hjn.
  apply lookup_take_Some in Hjn as [Hn Hj].
  specialize (Hfull r j Hr Hj ltac:(lia)).
  unfold load in Hfull. rewrite Hn in Hfull. done.
Qed.

Lemma earlier_rows_full_of_layouts_agree num_draft_tokens vocab_size :
  0 < vocab_size ->
  layouts_agree num_draft_tokens vocab_size ->
  forall r j, r < length num_draft_tokens -> j < r ->
    0 < load 0 num_draft_tokens r ->
    load 0 num_draft_tokens j = max_list num_draft_tokens.
Proof.
  intros Hv Hagree r j Hr Hj Hpos.
  specialize (Hagree r 0 0 Hr).
  rewrite in_range_cumsum in Hagree by done.
  specialize (Hagree Hpos Hv).
  apply offsets_agree_iff in Hagree; [|done..].
  rewrite Forall_lookup in Hagree.
  destruct (lookup_lt_is_Some_2 num_draft_tokens j ltac:(lia)) as [n Hn].
  unfold load. rewrite Hn. simpl.
  apply (Hagree j). by rewrite lookup_take_lt.
Qed.

(** C10, as the code has it.  The packed layout [compute_probs] writes and
    the dense layout the random verifier reads agree on every in-range
    (request, position) exactly when every request that comes before a
    request with at least one drafted token has [max_spec_len] tokens: only
    the last non-empty request may be shorter. *)
Theorem layouts_agree_iff_earlier_rows_full (num_draft_tokens : list nat)
    (vocab_size : nat) :
  0 < vocab_size ->
  layouts_agree num_draft_tokens vocab_size
  <-> forall r j, r < length num_draft_tokens -> j < r ->
        0 < load 0 num_draft_tokens r ->
        load 0 num_draft_tokens j = max_list num_draft_tokens.
Proof.
  intros Hv. split.
  - by apply earlier_rows_full_of_layouts_agree.
  - by apply layouts_agree_of_earlier_rows_full.
Qed.

Lemma layouts_agree_iff_earlier_rows_full_witness :
  layouts_agree [2; 2; 1] 4
  <-> forall r j, r < length [2; 2; 1] -> j < r ->
        0 < load 0 [2; 2; 1] r ->
        load 0 [2; 2; 1] j = max_list [2; 2; 1].
Proof.
  apply (layouts_agree_iff_earlier_rows_full [2; 2; 1] 4). lia.
Defined.

(** The claim as stated fails: in the batch with draft lengths [2; 1] the
    second request has fewer tokens than [max_spec_len = 2], and the two
    layouts still agree on every in-range pair. *)
Lemma short_last_request_layouts_agree :
  (exists n, n ∈ [2; 1] /\ n < max_list [2; 1])
  /\ layouts_agree [2; 1] 3
  /\ ~ (forall num_draft_tokens vocab_size,
          0 < vocab_size ->
          (exists n, n ∈ num_draft_tokens /\ n < max_list num_draft_tokens) ->
          ~ layouts_agree num_draft_tokens vocab_size).
Proof.
  assert (Hshort : exists n, n ∈ [2; 1] /\ n < max_list [2; 1]).
  { exists 1. split; [repeat constructor | simpl; lia]. }
  assert (Hagree : layouts_agree [2; 1] 3).
  { apply layouts_agree_of_earlier_rows_full; [lia|].
    intros r j Hr Hj _. simpl in Hr.
    assert (r = 1 /\ j = 0) as [-> ->] by lia. reflexivity. }
  split; [done|]. split; [done|].
  intros Hclaim. by apply (Hclaim [2; 1] 3 ltac:(lia) Hshort).
Qed.

(** A batch where they do differ: lengths [1; 2]. *)
Example short_first_request_layouts_differ :
  packed_offset (cu_num_draft_tokens_of [1; 2]) 3 1 0 0 = 3
  /\ dense_offset (max_list [1; 2]) 3 1 0 0 = 6.
Proof. split; reflexivity. Qed.

(** ** The capacity of the staging buffer *)

Lemma async_copy_to_device_over_capacity max_num_tokens buffer draft_token_ids :
  draft_token_ids <> [] ->
  max_num_tokens
    < length draft_token_ids * max_list (map length draft_token_ids) ->
  async_copy_to_device max_num_tokens buffer draft_token_ids
  = inl AssertionError.
Proof.
  intros Hne Hcap. unfold async_copy_to_device. cbv zeta.
  destruct draft_token_ids as [|ids rest]; [done|].
  set (l := ids :: rest) in *. simpl map at 1.
  rewrite (proj2 (Nat.leb_gt _ _)) by done. reflexivity.
Qed.

(** C8, as the code has it.  On a non-empty batch wider than the staging
    buffer the call does fail before any device work, with no output and
    with the staging buffer as it was, but not with a capacity error:
    [forward] evaluates [compute_probs] first, which raises
    [AttributeError] at [triton.next_power_of_two], so the assertion of
    [_async_copy_to_device], which this batch fails, is never reached. *)
Theorem forward_raises_before_capacity_check {T : Type} `{Arith T}
    (tl_softmax : list T -> list T) (masked_lane : nat -> T)
    (max_num_tokens : nat) (buffer : list Z)
    (draft_token_ids : list (list Z)) (cu_num_draft_tokens : list nat)
    (draft_probs : option (list T)) (target_logits : list T)
    (vocab_size : nat) (bonus_token_ids : list Z)
    (sampling_metadata : SamplingMetadata T)
    (empty_like rand_default exp_default : list T) :
  draft_token_ids <> [] ->
  max_num_tokens
    < length draft_token_ids * max_list (map length draft_token_ids) ->
  let c := forward tl_softmax masked_lane max_num_tokens buffer
             draft_token_ids cu_num_draft_tokens draft_probs target_logits
             vocab_size bonus_token_ids sampling_metadata empty_like
             rand_default exp_default in
  returned c = inl AttributeError
  /\ returned c <> inl AssertionError
  /\ issued c = []
  /\ staging c = buffer
  /\ async_copy_to_device max_num_tokens buffer draft_token_ids
     = inl AssertionError.
Proof.
  intros Hne Hcap c.
  assert (Hc : c = mkCall [] buffer (inl AttributeError)).
  { subst c. unfold forward.
    destruct draft_token_ids as [|ids rest]; [done|]. reflexivity. }
  rewrite Hc. cbn [returned issued staging].
  repeat split; [done|].
  by apply async_copy_to_device_over_capacity.
Qed.

Lemma forward_raises_before_capacity_check_witness :
  let c := forward (T := Q) (fun x => x) (fun _ => 0%Q) 1 [0%Z]
             [[5; 7]%Z] [2] None [1; 2; 3; 4]%Q 2 [42%Z]
             (mkSamplingMetadata [1%Q] false true []) [0; 0; 0; 0]%Q [] [] in
  returned c = inl AttributeError
  /\ returned c <> inl AssertionError
  /\ issued c = []
  /\ staging c = [0%Z]
  /\ async_copy_to_device 1 [0%Z] [[5; 7]%Z] = inl AssertionError.
Proof.
  apply (forward_raises_before_capacity_check (T := Q) (fun x => x)
           (fun _ => 0%Q) 1 [0%Z] [[5; 7]%Z] [2] None [1; 2; 3; 4]%Q 2 [42%Z]
           (mkSamplingMetadata [1%Q] false true []) [0; 0; 0; 0]%Q [] []).
  - discriminate.
  - simpl. lia.
Defined.

(** ** Recovered tokens *)

(** The recovered token of (request [b], position [p]): the arg-max of that
    position's residual row divided by the request's row of [q]. *)
Lemma load_recover_token_ids {T : Type} `{Arith T}
    (batch_size max_spec_len vocab_size : nat) (probs q : list T) (b p : nat) :
  b < batch_size -> p < max_spec_len ->
  load 0%Z (recover_token_ids batch_size max_spec_len vocab_size probs q)
       (b * max_spec_len + p)
  = Z.of_nat
      (argmax (zip_with fdiv (row vocab_size probs (b * max_spec_len + p))
                             (row vocab_size q b))).
Proof.
  intros Hb Hp. unfold recover_token_ids, load.
  rewrite list_lookup_fmap, lookup_seq_lt by nia. simpl.
  rewrite Nat.div_add_l, Nat.div_small by lia.
  by rewrite Nat.add_0_r.
Qed.

(** C5, as the code has it.  One row of [q] (one exponential draw over the
    vocabulary) serves a request, at all its positions; a recovered token is
    computed for each (request, position), as the arg-max of that position's
    residual row divided by the request's row of [q]; the token the random
    verifier writes at the first rejected position [p] of a row is the
    recovered token of that position. *)
Theorem rejected_position_gets_its_recovered_token {T : Type} `{Arith T}
    (draft_token_ids : list Z) (draft_probs : option (list T))
    (target_probs : list T) (bonus_token_ids : list Z)
    (uniform_probs probs q : list T) (is_greedy : list bool)
    (max_spec_len vocab_size batch_size : nat) (IS_NGRAM : bool)
    (o : list Z) (seq_idx p : nat) :
  length o = batch_size * (max_spec_len + 1) ->
  seq_idx < batch_size ->
  load false is_greedy seq_idx = false ->
  p < max_spec_len ->
  (forall k, k < p ->
     load 0%Z draft_token_ids (seq_idx * max_spec_len + k)
       <> PLACEHOLDER_TOKEN_ID
     /\ random_accepts draft_token_ids draft_probs target_probs uniform_probs
          max_spec_len vocab_size IS_NGRAM seq_idx k = true) ->
  load 0%Z draft_token_ids (seq_idx * max_spec_len + p)
    <> PLACEHOLDER_TOKEN_ID ->
  random_accepts draft_token_ids draft_probs target_probs uniform_probs
    max_spec_len vocab_size IS_NGRAM seq_idx p = false ->
  let recovered_token_ids :=
    recover_token_ids batch_size max_spec_len vocab_size probs q in
  let o' := rejection_random_sample_kernel draft_token_ids draft_probs
              target_probs bonus_token_ids recovered_token_ids uniform_probs
              is_greedy max_spec_len vocab_size IS_NGRAM o seq_idx in
  load 0%Z o' (seq_idx * (max_spec_len + 1) + p)
  = Z.of_nat
      (argmax (zip_with fdiv
                 (row vocab_size probs (seq_idx * max_spec_len + p))
                 (row vocab_size q seq_idx))).
Proof.
  intros Hlen Hseq Hg Hp Hprefix Hreal Hrej recovered_token_ids o'.
  pose proof (row_in_range batch_size max_spec_len seq_idx Hseq) as Hrow.
  subst o'. rewrite random_kernel_verdict, Hg.
  rewrite (verdict_kernel_rejected _ _ _ _ _ _ o p Hp Hprefix Hreal Hrej).
  rewrite load_store_eq by (rewrite length_accept_writes; lia).
  by apply load_recover_token_ids.
Qed.

Lemma rejected_position_gets_its_recovered_token_witness :
  let target_probs := [1 # 4; 3 # 4; 0; 1 # 4; 0; 3 # 4]%Q in
  let probs := residual_probs 1 2 3 [0; 0]%Z None target_probs in
  let q := [1; 1; 1]%Q in
  let recovered_token_ids := recover_token_ids 1 2 3 probs q in
  let o' := rejection_random_sample_kernel [0; 0]%Z None target_probs
              [42]%Z recovered_token_ids [0; 1 # 2]%Q [false] 2 3 true
              (replicate 3 PLACEHOLDER_TOKEN_ID) 0 in
  load 0%Z o' (0 * (2 + 1) + 1)
  = Z.of_nat (argmax (zip_with fdiv (row 3 probs (0 * 2 + 1)) (row 3 q 0))).
Proof.
  apply (rejected_position_gets_its_recovered_token (T := Q)
           [0; 0]%Z None [1 # 4; 3 # 4; 0; 1 # 4; 0; 3 # 4]%Q [42]%Z
           [0; 1 # 2]%Q
           (residual_probs 1 2 3 [0; 0]%Z None
              [1 # 4; 3 # 4; 0; 1 # 4; 0; 3 # 4]%Q)
           [1; 1; 1]%Q [false] 2 3 1 true
           (replicate 3 PLACEHOLDER_TOKEN_ID) 0 1).
  - reflexivity.
  - lia.
  - reflexivity.
  - lia.
  - intros k Hk. assert (k = 0) as -> by lia.
    split; [discriminate | reflexivity].
  - discriminate.
  - reflexivity.
Defined.

(** The claim as stated fails: with one request, drafted tokens [0, 0], no
    draft probabilities and a single row [1, 1, 1] of [q], two recovered
    tokens are computed for the row, 1 for position 0 and 2 for position 1;
    the row gets 1 when position 0 is rejected and 2 when position 1 is. *)
Lemma recovered_token_depends_on_position :
  let target_probs := [1 # 4; 3 # 4; 0; 1 # 4; 0; 3 # 4]%Q in
  let sm := mkSamplingMetadata [1%Q] false true [] in
  let run uniform :=
    rejection_sample (T := Q) 1 2 3 [0; 0]%Z [2] None target_probs [42]%Z sm
                     uniform [1; 1; 1]%Q in
  recover_token_ids 1 2 3
    (residual_probs 1 2 3 [0; 0]%Z None target_probs) [1; 1; 1]%Q
  = [1; 2]%Z
  /\ run [1 # 2; 1 # 2]%Q = [1; -1; -1]%Z
  /\ run [0; 1 # 2]%Q = [0; 2; -1]%Z.
Proof. repeat split; reflexivity. Qed.

(** ** compute_probs *)

Lemma length_masked_store {T} (d : T) v p buf base blk :
  length (masked_store d v p buf base blk) = length buf.
Proof.
  unfold masked_store. induction p as [|p IH]; [done|].
  rewrite seq_S, fold_left_app. simpl.
  destruct (p <? v); [by rewrite length_store|done].
Qed.

Lemma masked_store_outside {T} (d : T) v p buf base blk i :
  i < base \/ base + v <= i ->
  masked_store d v p buf base blk !! i = buf !! i.
Proof.
  intros Hi. unfold masked_store. induction p as [|p IH]; [done|].
  rewrite seq_S, fold_left_app. simpl.
  destruct (p <? v) eqn:Hp; [|done].
  apply Nat.ltb_lt in Hp. by rewrite lookup_store_ne by lia.
Qed.

Lemma masked_store_inside {T} (d : T) v p buf base blk off :
  off < v -> off < p -> base + off < length buf ->
  load d (masked_store d v p buf base blk) (base + off) = load d blk off.
Proof.
  intros Hv Hp Hlen. unfold masked_store. induction p as [|p IH]; [lia|].
  rewrite seq_S, fold_left_app. simpl.
  destruct (decide (off = p)) as [->|Hne].
  - rewrite (proj2 (Nat.ltb_lt p v)) by done.
    apply load_store_eq. fold (masked_store d v p buf base blk).
    by rewrite length_masked_store.
  - destruct (p <? v).
    + rewrite load_store_ne by lia. apply IH. lia.
    + apply IH. lia.
Qed.

Section ComputeProbsFacts.
Context {T : Type} `{Arith T}.
Variable tl_softmax : list T -> list T.
Variable masked_lane : nat -> T.
Variables (logits temperature : list T) (cu_num_draft_tokens : list nat).
Variables (vocab_size padded : nat).

(** A program of the grid at an out-of-range position stores nothing. *)
Lemma compute_probs_kernel_out_of_range buf req_idx pos :
  ~ in_range cu_num_draft_tokens req_idx pos ->
  compute_probs_kernel tl_softmax masked_lane logits temperature
    cu_num_draft_tokens vocab_size padded buf req_idx pos = buf.
Proof.
  unfold in_range, compute_probs_kernel. intros Hout.
  by rewrite (proj2 (Nat.leb_le _ _)) by lia.
Qed.

(** At an in-range position it stores one block, at row
    [start_idx + pos]. *)
Lemma compute_probs_kernel_in_range buf req_idx pos :
  in_range cu_num_draft_tokens req_idx pos ->
  let start_idx :=
    if req_idx =? 0 then 0 else load 0 cu_num_draft_tokens (req_idx - 1) in
  let blk := logits_block masked_lane logits vocab_size padded (start_idx + pos) in
  let temp := load (fof_Z 0) temperature req_idx in
  compute_probs_kernel tl_softmax masked_lane logits temperature
    cu_num_draft_tokens vocab_size padded buf req_idx pos
  = masked_store (fof_Z 0) vocab_size padded buf
      ((start_idx + pos) * vocab_size)
      (if feqb temp (fof_Z GREEDY_TEMPERATURE) then blk
       else tl_softmax (map (fun x => fdiv x temp) blk)).
Proof.
  unfold in_range, compute_probs_kernel. intros Hin.
  by rewrite (proj2 (Nat.leb_gt _ _)) by lia.
Qed.
End ComputeProbsFacts.

(** ** compute_probs raises *)

(** C6.  The constructor writes no row.  [compute_probs] looks up
    [triton.next_power_of_two] while it builds the arguments of the launch,
    and Triton has no such attribute: the call raises [AttributeError]
    whatever the logits, the temperatures and the draft lengths, and
    [compute_probs_kernel] is not launched. *)
Theorem compute_probs_raises_before_launch {T : Type} `{Arith T}
    (tl_softmax : list T -> list T) (masked_lane : nat -> T)
    (empty_like logits temperature : list T)
    (cu_num_draft_tokens : list nat) (max_spec_len vocab_size : nat) :
  compute_probs tl_softmax masked_lane empty_like logits temperature
    cu_num_draft_tokens max_spec_len vocab_size
  = inl AttributeError
  /\ forall output_prob,
       compute_probs tl_softmax masked_lane empty_like logits temperature
         cu_num_draft_tokens max_spec_len vocab_size
       <> inr output_prob.
Proof. split; [reflexivity | discriminate]. Qed.

(** ** The residual probabilities, in exact arithmetic *)

Local Open Scope Q_scope.

Lemma fold_left_Qplus (l : list Q) (a : Q) :
  fold_left Qplus l a == a + fold_left Qplus l 0.
Proof.
  revert a. induction l as [|x l IH]; intros a; simpl; [lra|].
  rewrite (IH (a + x)), (IH (0 + x)). lra.
Qed.

Lemma fsum_Q_cons (x : Q) (l : list Q) : fsum (x :: l) == x + fsum l.
Proof.
  unfold fsum. simpl. rewrite fold_left_Qplus.
  change (inject_Z 0) with 0%Q. lra.
Qed.

Lemma fsum_Q_nonneg (l : list Q) : Forall (fun x => 0 <= x) l -> 0 <= fsum l.
Proof.
  induction 1 as [|x l Hx _ IH]; [by compute|].
  rewrite fsum_Q_cons. lra.
Qed.

Lemma fsum_Q_pos (l : list Q) :
  Forall (fun x => 0 <= x) l -> Exists (fun x => 0 < x) l -> 0 < fsum l.
Proof.
  intros Hnn Hex. induction Hnn as [|x l Hx Hl IH].
  - by apply Exists_nil in Hex.
  - rewrite fsum_Q_cons. pose proof (fsum_Q_nonneg l Hl).
    apply Exists_cons in Hex as [Hpos|Hex]; [lra|].
    specialize (IH Hex). lra.
Qed.

Lemma fsum_Q_scale (l : list Q) (s : Q) :
  fsum (map (fun x => x / s) l) == fsum l / s.
Proof.
  induction l as [|x l IH].
  - unfold fsum. simpl. change (inject_Z 0) with 0%Q.
    unfold Qdiv. lra.
  - simpl map. rewrite !fsum_Q_cons, IH. unfold Qdiv. lra.
Qed.

(** A row with a non-zero sum is renormalized to sum 1. *)
Lemma fsum_normalize (l : list Q) : ~ fsum l == 0 -> fsum (normalize l) == 1.
Proof.
  intros Hs. unfold normalize.
  change (fun x : Q => fdiv x (fsum l)) with (fun x : Q => x / fsum l).
  rewrite fsum_Q_scale. by field.
Qed.

Lemma ftiny_Q_pos : 0 < (ftiny : Q).
Proof. reflexivity. Qed.

(** [torch.clamp(x, min=tiny)] is [max(x, tiny)]. *)
Lemma clamp_min_Q (m x : Q) : clamp_min m x == Qmax x m /\ m <= clamp_min m x.
Proof.
  unfold clamp_min. simpl fltb.
  destruct (Qle_bool m x) eqn:Hle; simpl.
  - apply Qle_bool_iff in Hle. split; [|done].
    symmetry. by apply Q.max_l.
  - assert (x < m) as Hlt.
    { apply Qnot_le_lt. intros Hc. apply Qle_bool_iff in Hc. congruence. }
    split; [|lra]. symmetry. apply Q.max_r. lra.
Qed.

Local Close Scope Q_scope.

Lemma length_normalize {T} `{Arith T} (l : list T) :
  length (normalize l) = length l.
Proof. unfold normalize. by rewrite length_map. Qed.

(** Row [r] of a buffer made of chunks of one width is chunk [r]. *)
Lemma row_concat {A} (w : nat) (chunks : list (list A)) : forall r c,
  Forall (fun c => length c = w) chunks ->
  chunks !! r = Some c -> row w (concat chunks) r = c.
Proof.
  induction chunks as [|c0 chunks IH]; intros r c Hw Hr; [done|].
  apply Forall_cons in Hw as [Hc0 Hw]. unfold row. simpl concat.
  destruct r as [|r]; simpl in Hr.
  - injection Hr as ->. change (0 * w) with 0. rewrite drop_0.
    by rewrite take_app_length'.
  - replace (S r * w) with (length c0 + r * w) by lia.
    rewrite <- drop_drop, drop_app_length. by apply IH.
Qed.

Lemma row_zip_with {A B C} (f : A -> B -> C) w (a : list A) (b : list B) r :
  row w (zip_with f a b) r = zip_with f (row w a r) (row w b r).
Proof. unfold row. by rewrite zip_with_drop, zip_with_take. Qed.

Lemma row_insert_inside {A} w (mem : list A) r j x :
  j < w -> row w (<[r * w + j := x]> mem) r = <[j := x]> (row w mem r).
Proof.
  intros Hj. unfold row.
  rewrite drop_insert_ge by lia.
  replace (r * w + j - r * w) with j by lia.
  by rewrite take_insert_lt.
Qed.

Lemma row_insert_outside {A} w (mem : list A) r r' j x :
  j < w -> r <> r' -> row w (<[r' * w + j := x]> mem) r = row w mem r.
Proof.
  intros Hj Hr. unfold row.
  destruct (decide (r' < r)) as [Hlt|Hge].
  - rewrite drop_insert_lt by nia. done.
  - rewrite drop_insert_ge by nia. rewrite take_insert_ge by nia. done.
Qed.

(** [scatter_] zeroes, in each row, the cell the index names. *)
Lemma row_scatter_zero {T} `{Arith T} vocab_size (probs : list T)
    (index : list Z) (r : nat) :
  (forall i, i < length index ->
     (0 <= load 0%Z index i < Z.of_nat vocab_size)%Z) ->
  r < length index ->
  row vocab_size (scatter_zero vocab_size probs index) r
  = <[Z.to_nat (load 0%Z index r) := fof_Z 0]> (row vocab_size probs r).
Proof.
  intros Hvalid Hr. unfold scatter_zero.
  set (step := fun (p : list T) (i : nat) => _).
  assert (Hgen : forall n, n <= length index ->
            row vocab_size (fold_left step (seq 0 n) probs) r
            = if decide (r < n)
              then <[Z.to_nat (load 0%Z index r) := fof_Z 0]>
                     (row vocab_size probs r)
              else row vocab_size probs r).
  { induction n as [|n IH]; intros Hn; [done|].
    rewrite seq_S, fold_left_app. simpl fold_left.
    set (p := fold_left step (seq 0 n) probs) in *.
    assert (Hstep : step p n
                    = <[n * vocab_size + Z.to_nat (load 0%Z index n) := fof_Z 0]> p).
    { unfold step. cbv zeta. specialize (Hvalid n ltac:(lia)).
      rewrite (proj2 (Z.leb_le _ _)) by lia.
      by rewrite (proj2 (Z.ltb_lt _ _)) by lia. }
    rewrite Hstep. specialize (Hvalid n ltac:(lia)).
    destruct (decide (r = n)) as [->|Hne].
    - rewrite row_insert_inside by lia. rewrite IH by lia.
      destruct (decide (n < n)); [lia|].
      destruct (decide (n < S n)); [done|lia].
    - rewrite row_insert_outside by lia. rewrite IH by lia.
      destruct (decide (r < n)), (decide (r < S n)); done || lia. }
  rewrite Hgen by done. destruct (decide (r < length index)); [done|lia].
Qed.

Lemma length_scatter_zero {T} `{Arith T} vocab_size (probs : list T) index :
  length (scatter_zero vocab_size probs index) = length probs.
Proof.
  unfold scatter_zero. induction (length index) as [|n IH]; [done|].
  rewrite seq_S, fold_left_app. simpl. cbv zeta.
  destruct (_ && _)%bool; [by rewrite length_store|done].
Qed.

(** Row [r] of the residual array is the renormalized row [r] of the
    adjusted array. *)
Lemma row_residual_probs {T} `{Arith T} (batch_size max_spec_len vocab_size : nat)
    (draft_token_ids : list Z) (draft_probs : option (list T))
    (target_probs : list T) (r : nat) :
  length target_probs = batch_size * max_spec_len * vocab_size ->
  (forall dp, draft_probs = Some dp ->
     length dp = batch_size * max_spec_len * vocab_size) ->
  r < batch_size * max_spec_len ->
  row vocab_size
      (residual_probs batch_size max_spec_len vocab_size draft_token_ids
         draft_probs target_probs) r
  = normalize
      (row vocab_size
         match draft_probs with
         | None => scatter_zero vocab_size target_probs
                     (safe_draft_token_ids draft_token_ids)
         | Some dp => zip_with (fun t d => clamp_min ftiny (fsub t d))
                        target_probs dp
         end r).
Proof.
  intros Htarget Hdp Hr. unfold residual_probs.
  set (probs := match draft_probs with None => _ | Some _ => _ end).
  assert (Hlen : length probs = batch_size * max_spec_len * vocab_size).
  { subst probs. destruct draft_probs as [dp|].
    - rewrite length_zip_with, Htarget, (Hdp dp eq_refl). lia.
    - by rewrite length_scatter_zero. }
  apply row_concat.
  - apply Forall_map, Forall_forall. intros i Hi.
    apply elem_of_seq in Hi. rewrite length_normalize.
    apply row_length. nia.
  - rewrite list_lookup_fmap, lookup_seq_lt by done. done.
Qed.

(** C4, as the code has it, in exact (rational) arithmetic.  For inputs of
    the declared shapes with every drafted token a vocabulary index or the
    placeholder, row [r] of the residual array is:
    - with no draft probabilities, the target row with the cell of the
      drafted token (cell 0 for a placeholder) set to zero, divided by the
      sum of that zeroed row; the sum is positive, and the row sums to 1,
      when the target row is non-negative and has positive mass at some
      other cell;
    - with draft probabilities, the cells [clamp(target - draft, min=tiny)],
      each at least [tiny], divided by their sum; the sum is positive and the
      row sums to 1. *)
Theorem residual_rows_renormalized (batch_size max_spec_len vocab_size : nat)
    (draft_token_ids : list Z) (draft_probs : option (list Q))
    (target_probs : list Q) (r : nat) :
  0 < vocab_size ->
  length target_probs = batch_size * max_spec_len * vocab_size ->
  length draft_token_ids = batch_size * max_spec_len ->
  (forall i, i < batch_size * max_spec_len ->
     load 0%Z draft_token_ids i = PLACEHOLDER_TOKEN_ID
     \/ (0 <= load 0%Z draft_token_ids i < Z.of_nat vocab_size)%Z) ->
  (forall dp, draft_probs = Some dp ->
     length dp = batch_size * max_spec_len * vocab_size) ->
  r < batch_size * max_spec_len ->
  let residual :=
    row vocab_size
        (residual_probs batch_size max_spec_len vocab_size draft_token_ids
           draft_probs target_probs) r in
  let target_row := row vocab_size target_probs r in
  match draft_probs with
  | None =>
      let t := Z.to_nat (load 0%Z (safe_draft_token_ids draft_token_ids) r) in
      let zeroed := <[t := 0%Q]> target_row in
      residual = normalize zeroed
      /\ (Forall (fun x => (0 <= x)%Q) target_row ->
          (exists v, v <> t /\ (0 < load 0%Q target_row v)%Q) ->
          (0 < fsum zeroed)%Q /\ (fsum residual == 1)%Q)
  | Some dp =>
      let clamped :=
        zip_with (fun a d => clamp_min ftiny (a - d)%Q) target_row
                 (row vocab_size dp r) in
      residual = normalize clamped
      /\ Forall (fun x => (ftiny <= x)%Q) clamped
      /\ (0 < fsum clamped)%Q /\ (fsum residual == 1)%Q
  end.
Proof.
  intros Hv Htarget Hdraft Hvalid Hdp Hr residual target_row.
  assert (Hres := row_residual_probs batch_size max_spec_len vocab_size
                    draft_token_ids draft_probs target_probs r Htarget Hdp Hr).
  fold residual in Hres.
  assert (Hlenrow : length target_row = vocab_size).
  { apply row_length. nia. }
  destruct draft_probs as [dp|].
  - (* draft probabilities present *)
    cbv zeta. rewrite row_zip_with in Hres. fold target_row in Hres.
    set (clamped := zip_with _ target_row (row vocab_size dp r)) in *.
    assert (Htiny : Forall (fun x => (ftiny <= x)%Q) clamped).
    { apply Forall_lookup. intros i x Hi.
      apply lookup_zip_with_Some in Hi as (a & d & -> & _ & _).
      apply clamp_min_Q. }
    assert (Hlen : length clamped = vocab_size).
    { unfold clamped. rewrite length_zip_with, Hlenrow.
      rewrite row_length by (rewrite (Hdp dp eq_refl); nia). lia. }
    assert (Hpos : (0 < fsum clamped)%Q).
    { pose proof ftiny_Q_pos as Ht. apply fsum_Q_pos.
      - eapply Forall_impl; [exact Htiny|]. intros x Hx. cbv beta in Hx. lra.
      - destruct clamped as [|x rest]; [simpl in Hlen; lia|].
        apply Exists_cons_hd. apply Forall_cons in Htiny as [Hx _]. lra. }
    repeat (split; [done|]). rewrite Hres. apply fsum_normalize. lra.
  - (* n-gram *)
    cbv zeta. rewrite row_scatter_zero in Hres.
    + fold target_row in Hres.
      change (@fof_Z Q Arith_Q 0%Z) with 0%Q in Hres.
      split; [exact Hres|].
      intros Hnn (v & Hvt & Hvpos).
      set (t := Z.to_nat (load 0%Z (safe_draft_token_ids draft_token_ids) r)) in *.
      assert (Hpos : (0 < fsum (<[t := 0%Q]> target_row))%Q).
      { apply fsum_Q_pos.
        - apply Forall_insert; [done|lra].
        - apply Exists_exists. exists (load 0%Q target_row v).
          split; [|done]. apply list_elem_of_lookup. exists v.
          rewrite list_lookup_insert_ne by done.
          unfold load in *. destruct (target_row !! v); [done|].
          simpl in Hvpos. lra. }
      split; [done|]. rewrite Hres. apply fsum_normalize. lra.
    + intros i Hi. unfold safe_draft_token_ids in *.
      rewrite length_map, Hdraft in Hi. specialize (Hvalid i Hi).
      unfold load in Hvalid |- *. rewrite list_lookup_fmap.
      destruct (lookup_lt_is_Some_2 draft_token_ids i ltac:(lia)) as [tk Htk].
      rewrite Htk in Hvalid |- *. simpl in Hvalid |- *.
      destruct (tk =? PLACEHOLDER_TOKEN_ID)%Z eqn:Heq; [lia|].
      apply Z.eqb_neq in Heq. destruct Hvalid; [done|lia].
    + unfold safe_draft_token_ids. rewrite length_map. lia.
Qed.

Lemma residual_rows_renormalized_witness :
  let residual :=
    row 2 (residual_probs 1 1 2 [0%Z] None [1 # 4; 3 # 4]%Q) 0 in
  let target_row := row 2 [1 # 4; 3 # 4]%Q 0 in
  let t := Z.to_nat (load 0%Z (safe_draft_token_ids [0%Z]) 0) in
  let zeroed := <[t := 0%Q]> target_row in
  residual = normalize zeroed
  /\ (Forall (fun x => (0 <= x)%Q) target_row ->
      (exists v, v <> t /\ (0 < load 0%Q target_row v)%Q) ->
      (0 < fsum zeroed)%Q /\ (fsum residual == 1)%Q).
Proof.
  apply (residual_rows_renormalized 1 1 2 [0%Z] None [1 # 4; 3 # 4]%Q 0).
  - lia.
  - reflexivity.
  - reflexivity.
  - intros i Hi. assert (i = 0) as -> by lia. right.
    change (0 <= 0 < 2)%Z. lia.
  - discriminate.
  - lia.
Defined.

(** The claim as stated fails: a target row that is a proper distribution
    with all its mass on the drafted token is zeroed entirely in n-gram
    mode, the normalizing sum is exactly zero, and the row does not sum to
    1. *)
Lemma ngram_one_hot_row_has_zero_sum :
  let target_probs := [1; 0]%Q in
  (fsum target_probs == 1)%Q
  /\ Forall (fun x => (0 <= x)%Q) target_probs
  /\ (fsum (scatter_zero 2 target_probs (safe_draft_token_ids [0%Z]))
      == 0)%Q
  /\ ~ (fsum (row 2 (residual_probs 1 1 2 [0%Z] None target_probs) 0) == 1)%Q.
Proof.
  split; [by vm_compute|]. split; [repeat constructor; by vm_compute|].
  split; [by vm_compute|]. intros Hone. by vm_compute in Hone.
Qed.

(** * Further properties of the code *)

(** ** parse_output *)

(** Each extracted row is the longest prefix of its row without a
    placeholder: the row is the extracted tokens followed by nothing or by
    something that starts with a placeholder. *)
Theorem parse_output_longest_real_prefix (output_token_ids : list (list Z)) :
  Forall2
    (fun token_ids parsed =>
       Forall (fun t => t <> PLACEHOLDER_TOKEN_ID) parsed
       /\ exists rest, token_ids = parsed ++ rest
            /\ (rest = [] \/ head rest = Some PLACEHOLDER_TOKEN_ID))
    output_token_ids (parse_output output_token_ids).
Proof.
  unfold parse_output. apply Forall2_fmap_r, Forall_Forall2_diag, Forall_forall.
  intros token_ids _. induction token_ids as [|t rest IH]; simpl.
  - split; [constructor|]. exists []. split; [done | by left].
  - destruct (t =? PLACEHOLDER_TOKEN_ID)%Z eqn:Ht.
    + apply Z.eqb_eq in Ht as ->. split; [constructor|].
      exists (PLACEHOLDER_TOKEN_ID :: rest). split; [done | by right].
    + apply Z.eqb_neq in Ht. destruct IH as (Hreal & tl & Heq & Htl).
      split; [by constructor|]. exists tl. split; [|done].
      simpl. by rewrite <- Heq.
Qed.

(** ** _async_copy_to_device *)

(** A batch that fits: the buffer keeps its size, its first
    [batch_size * max_spec_len] cells are the matrix returned, the cells
    after them keep their content, and row [i] of the matrix is draft [i]
    followed by placeholders. *)
Theorem staging_buffer_after_copy (max_num_tokens : nat) (buffer : list Z)
    (draft_token_ids : list (list Z)) :
  draft_token_ids <> [] ->
  length buffer = max_num_tokens ->
  length draft_token_ids * max_list (map length draft_token_ids)
    <= max_num_tokens ->
  let batch_size := length draft_token_ids in
  let max_spec_len := max_list (map length draft_token_ids) in
  exists buffer' m,
    async_copy_to_device max_num_tokens buffer draft_token_ids
    = inr (buffer', m)
    /\ length buffer' = length buffer
    /\ length m = batch_size * max_spec_len
    /\ take (batch_size * max_spec_len) buffer' = m
    /\ drop (batch_size * max_spec_len) buffer'
       = drop (batch_size * max_spec_len) buffer
    /\ forall i token_ids, draft_token_ids !! i = Some token_ids ->
         row max_spec_len m i
         = token_ids
           ++ replicate (max_spec_len - length token_ids) PLACEHOLDER_TOKEN_ID.
Proof.
  intros Hne Hbuf Hcap batch_size max_spec_len.
  destruct (async_copy_to_device_ok max_num_tokens buffer draft_token_ids
              Hne Hbuf Hcap) as [Hcopy Hrows].
  fold max_spec_len batch_size in Hcopy, Hrows.
  set (m := concat (map (pad_row max_spec_len) draft_token_ids)) in *.
  assert (Hw : Forall (fun c => length c = max_spec_len)
                 (map (pad_row max_spec_len) draft_token_ids)).
  { apply Forall_map, Forall_forall. intros ids Hin.
    apply length_pad_row, max_list_elem_of_le, list_elem_of_fmap.
    by exists ids. }
  assert (Hm : length m = batch_size * max_spec_len).
  { unfold m, batch_size. rewrite <- (length_map (pad_row max_spec_len)).
    clear -Hw. induction Hw as [|c cs Hc _ IH]; [done|].
    simpl. rewrite length_app, Hc, IH. lia. }
  eexists _, _. split; [exact Hcopy|].
  split; [rewrite length_app, length_drop; lia|].
  split; [done|].
  split; [by rewrite take_app_length'|].
  split; [by rewrite drop_app_length'|].
  intros i token_ids Hi. apply row_concat; [done|].
  by rewrite list_lookup_fmap, Hi.
Qed.

Lemma staging_buffer_after_copy_witness :
  let batch_size := length [[5; 7]; [3]]%Z in
  let max_spec_len := max_list (map length [[5; 7]; [3]]%Z) in
  exists buffer' m,
    async_copy_to_device 6 [9; 9; 9; 9; 9; 9]%Z [[5; 7]; [3]]%Z
    = inr (buffer', m)
    /\ length buffer' = length [9; 9; 9; 9; 9; 9]%Z
    /\ length m = batch_size * max_spec_len
    /\ take (batch_size * max_spec_len) buffer' = m
    /\ drop (batch_size * max_spec_len) buffer'
       = drop (batch_size * max_spec_len) [9; 9; 9; 9; 9; 9]%Z
    /\ forall i token_ids, [[5; 7]; [3]]%Z !! i = Some token_ids ->
         row max_spec_len m i
         = token_ids
           ++ replicate (max_spec_len - length token_ids) PLACEHOLDER_TOKEN_ID.
Proof.
  apply (staging_buffer_after_copy 6 [9; 9; 9; 9; 9; 9]%Z [[5; 7]; [3]]%Z).
  - discriminate.
  - reflexivity.
  - simpl. lia.
Defined.

(** ** The programs of a launch are independent *)

(** What a run of accepted tokens and one more cell leave in the buffer,
    cell by cell. *)
Lemma accept_writes_lookup tok base n o i :
  accept_writes tok base n o !! i
  = if decide (base <= i < base + n /\ i < length o)
    then Some (tok (i - base)) else o !! i.
Proof.
  induction n as [|n IH].
  { simpl. case_decide; [lia|done]. }
  rewrite accept_writes_S. unfold store.
  rewrite list_lookup_insert, length_accept_writes, IH.
  repeat case_decide; destruct_and?; subst; try done; try lia.
  do 2 f_equal. lia.
Qed.

Section Programs.
Variable w : nat.
Variable active : nat -> bool.
Variables (tok : nat -> nat -> Z) (acc : nat -> nat -> bool) (rep : nat -> nat -> Z).
Variable bon : nat -> Z.
Variable K : list Z -> nat -> list Z.
Hypothesis K_scan : forall o i,
  K o i = if active i
          then verdict_kernel (tok i) (acc i) (rep i) (i * (w + 1)) (bon i) w o
          else o.

(** A program overwrites cells of its own row with values that do not
    depend on the buffer. *)
Lemma program_cells i :
  exists wr : nat -> option Z,
    (forall idx, wr idx <> None -> i * (w + 1) <= idx <= i * (w + 1) + w)
    /\ forall o idx,
         K o i !! idx
         = match wr idx with
           | Some x => if decide (idx < length o) then Some x else None
           | None => o !! idx
           end.
Proof.
  destruct (active i) eqn:Ha.
  2:{ exists (fun _ => None). split; [done|]. intros o idx.
      by rewrite K_scan, Ha. }
  set (base := i * (w + 1)).
  destruct (first_stop (tok i) (acc i) w) as (k & Hk & Hacc & Hstop).
  assert (Hv : exists v, forall o,
             verdict_kernel (tok i) (acc i) (rep i) base (bon i) w o
             = store (accept_writes (tok i) base k o) (base + k) v).
  { destruct (decide (k = w)) as [->|Hne].
    { exists (bon i). intros o. by apply verdict_kernel_full. }
    destruct (decide (tok i k = PLACEHOLDER_TOKEN_ID)) as [Hp|Hp].
    { exists (bon i). intros o.
      apply verdict_kernel_placeholder; [lia|done|done]. }
    destruct Hstop as [?|Hrej]; [lia|done|].
    exists (rep i k). intros o. apply verdict_kernel_rejected; [lia|done..]. }
  destruct Hv as [v Hv].
  exists (fun idx =>
            if decide (base <= idx < base + k) then Some (tok i (idx - base))
            else if decide (idx = base + k) then Some v else None).
  split.
  - intros idx Hidx. unfold base in *.
    destruct (decide (i * (w + 1) <= idx < i * (w + 1) + k)); [lia|].
    destruct (decide (idx = i * (w + 1) + k)); [lia|done].
  - intros o idx. rewrite K_scan, Ha. fold base. rewrite Hv. unfold store.
    rewrite list_lookup_insert, length_accept_writes, accept_writes_lookup.
    repeat case_decide; destruct_and?; subst; try done; try lia.
    all: first [ apply lookup_ge_None_2; lia
               | symmetry; apply lookup_ge_None_2; lia ].
Qed.

Lemma program_length o i : length (K o i) = length o.
Proof.
  rewrite K_scan. destruct (active i); [|done].
  destruct (verdict_kernel_shape (tok i) (acc i) (rep i) (i * (w + 1)) (bon i) w o)
    as (k & v & _ & _ & _ & _ & ->).
  by rewrite length_store, length_accept_writes.
Qed.

(** Two programs of a launch commute. *)
Lemma programs_commute o a b : K (K o a) b = K (K o b) a.
Proof.
  destruct (decide (a = b)) as [->|Hab]; [done|].
  destruct (program_cells a) as (wa & Hwa & Ha).
  destruct (program_cells b) as (wb & Hwb & Hb).
  apply list_eq. intros idx.
  rewrite Hb, Ha, Ha, Hb, !program_length.
  destruct (wa idx) eqn:Ea, (wb idx) eqn:Eb.
  - assert (a * (w + 1) <= idx <= a * (w + 1) + w) by (apply Hwa; congruence).
    assert (b * (w + 1) <= idx <= b * (w + 1) + w) by (apply Hwb; congruence).
    destruct (decide (a < b)); nia.
  - by repeat case_decide.
  - by repeat case_decide.
  - done.
Qed.

(** The programs of a launch may run in any order. *)
Lemma programs_any_order (l l' : list nat) o :
  l ≡ₚ l' -> fold_left K l o = fold_left K l' o.
Proof.
  intros Hperm. revert o.
  induction Hperm as [|x l l' _ IH|x y l|l l' l'' _ IH1 _ IH2]; intros o.
  - done.
  - simpl. apply IH.
  - simpl. by rewrite programs_commute.
  - by rewrite IH1, IH2.
Qed.

(** The other programs leave a row as it is. *)
Lemma programs_frame (l : list nat) o r j :
  r ∉ l -> j <= w ->
  fold_left K l o !! (r * (w + 1) + j) = o !! (r * (w + 1) + j).
Proof.
  revert o. induction l as [|i l IH]; intros o Hr Hj; [done|].
  apply not_elem_of_cons in Hr as [Hri Hrl]. simpl.
  rewrite IH by done.
  destruct (program_cells i) as (wi & Hwi & Hi). rewrite Hi.
  destruct (wi (r * (w + 1) + j)) eqn:E; [|done].
  assert (i * (w + 1) <= r * (w + 1) + j <= i * (w + 1) + w)
    by (apply Hwi; congruence).
  destruct (decide (r < i)); nia.
Qed.

(** After the launch, each row is what its own program makes of the
    initial buffer. *)
Lemma launch_row_is_own_program batch_size o r :
  r < batch_size ->
  row (w + 1) (launch K batch_size o) r = row (w + 1) (K o r) r.
Proof.
  intros Hr. unfold launch.
  assert (Hperm : seq 0 batch_size
                  ≡ₚ r :: (seq 0 r ++ seq (S r) (batch_size - S r))).
  { rewrite (seq_split r batch_size Hr) at 1.
    by rewrite Permutation_middle. }
  rewrite (programs_any_order _ _ o Hperm). simpl.
  apply list_eq. intros j.
  destruct (decide (j < w + 1)) as [Hj|Hj].
  - rewrite !row_lookup by done. apply programs_frame; [|lia].
    rewrite elem_of_app, !elem_of_seq. lia.
  - unfold row. rewrite !lookup_take_ge by lia. done.
Qed.
End Programs.

(** *** The verifier kernels *)

(** Two programs of the greedy kernel commute, so the result of the launch
    does not depend on the order in which the rows are processed. *)
Theorem greedy_launch_any_order
    (draft_token_ids target_argmax bonus_token_ids : list Z)
    (is_greedy : list bool) (max_spec_len batch_size : nat) (o : list Z)
    (order : list nat) :
  order ≡ₚ seq 0 batch_size ->
  fold_left (rejection_greedy_sample_kernel draft_token_ids target_argmax
               bonus_token_ids is_greedy max_spec_len) order o
  = launch (rejection_greedy_sample_kernel draft_token_ids target_argmax
              bonus_token_ids is_greedy max_spec_len) batch_size o.
Proof.
  intros Hperm. unfold launch.
  apply (programs_any_order max_spec_len
           (fun i => load false is_greedy i)
           (fun i p => load 0%Z draft_token_ids (i * max_spec_len + p))
           (greedy_accepts draft_token_ids target_argmax max_spec_len)
           (fun i p => load 0%Z target_argmax (i * max_spec_len + p))
           (fun i => load 0%Z bonus_token_ids i)); [|done].
  intros o1 i. rewrite greedy_kernel_verdict.
  by destruct (load false is_greedy i).
Qed.

Lemma greedy_launch_any_order_witness :
  fold_left (rejection_greedy_sample_kernel [5; 7; 3; 4]%Z [5; 9; 3; 4]%Z
               [42; 43]%Z [true; true] 2) [1; 0]
            (replicate 6 PLACEHOLDER_TOKEN_ID)
  = launch (rejection_greedy_sample_kernel [5; 7; 3; 4]%Z [5; 9; 3; 4]%Z
              [42; 43]%Z [true; true] 2) 2
           (replicate 6 PLACEHOLDER_TOKEN_ID).
Proof.
  apply (greedy_launch_any_order [5; 7; 3; 4]%Z [5; 9; 3; 4]%Z [42; 43]%Z
           [true; true] 2 2 (replicate 6 PLACEHOLDER_TOKEN_ID) [1; 0]).
  apply perm_swap.
Defined.

(** The same for the random kernel. *)
Theorem random_launch_any_order {T : Type} `{Arith T}
    (draft_token_ids : list Z) (draft_probs : option (list T))
    (target_probs : list T) (bonus_token_ids recovered_token_ids : list Z)
    (uniform_probs : list T) (is_greedy : list bool)
    (max_spec_len vocab_size batch_size : nat) (IS_NGRAM : bool)
    (o : list Z) (order : list nat) :
  order ≡ₚ seq 0 batch_size ->
  fold_left (rejection_random_sample_kernel draft_token_ids draft_probs
               target_probs bonus_token_ids recovered_token_ids uniform_probs
               is_greedy max_spec_len vocab_size IS_NGRAM) order o
  = launch (rejection_random_sample_kernel draft_token_ids draft_probs
              target_probs bonus_token_ids recovered_token_ids uniform_probs
              is_greedy max_spec_len vocab_size IS_NGRAM) batch_size o.
Proof.
  intros Hperm. unfold launch.
  apply (programs_any_order max_spec_len
           (fun i => negb (load false is_greedy i))
           (fun i p => load 0%Z draft_token_ids (i * max_spec_len + p))
           (random_accepts draft_token_ids draft_probs target_probs
              uniform_probs max_spec_len vocab_size IS_NGRAM)
           (fun i p => load 0%Z recovered_token_ids (i * max_spec_len + p))
           (fun i => load 0%Z bonus_token_ids i)); [|done].
  intros o1 i. rewrite random_kernel_verdict.
  by destruct (load false is_greedy i).
Qed.

Lemma random_launch_any_order_witness :
  fold_left (rejection_random_sample_kernel (T := Q) [0; 0; 1; 1]%Z None
               [1 # 4; 3 # 4; 1 # 4; 3 # 4; 1 # 4; 3 # 4; 1 # 4; 3 # 4]%Q
               [42; 43]%Z [1; 1; 0; 0]%Z [1 # 2; 1 # 2; 1 # 2; 1 # 2]%Q
               [false; false] 2 2 true) [1; 0]
            (replicate 6 PLACEHOLDER_TOKEN_ID)
  = launch (rejection_random_sample_kernel (T := Q) [0; 0; 1; 1]%Z None
              [1 # 4; 3 # 4; 1 # 4; 3 # 4; 1 # 4; 3 # 4; 1 # 4; 3 # 4]%Q
              [42; 43]%Z [1; 1; 0; 0]%Z [1 # 2; 1 # 2; 1 # 2; 1 # 2]%Q
              [false; false] 2 2 true) 2
           (replicate 6 PLACEHOLDER_TOKEN_ID).
Proof.
  apply (random_launch_any_order (T := Q) [0; 0; 1; 1]%Z None
           [1 # 4; 3 # 4; 1 # 4; 3 # 4; 1 # 4; 3 # 4; 1 # 4; 3 # 4]%Q
           [42; 43]%Z [1; 1; 0; 0]%Z [1 # 2; 1 # 2; 1 # 2; 1 # 2]%Q
           [false; false] 2 2 2 true (replicate 6 PLACEHOLDER_TOKEN_ID) [1; 0]).
  apply perm_swap.
Defined.

(** After the launch of the greedy kernel, each row is what the program of
    that row alone writes on the initial buffer: rows do not influence each
    other. *)
Theorem greedy_launch_rows_independent
    (draft_token_ids target_argmax bonus_token_ids : list Z)
    (is_greedy : list bool) (max_spec_len batch_size : nat) (o : list Z)
    (r : nat) :
  r < batch_size ->
  row (max_spec_len + 1)
      (launch (rejection_greedy_sample_kernel draft_token_ids target_argmax
                 bonus_token_ids is_greedy max_spec_len) batch_size o) r
  = row (max_spec_len + 1)
        (rejection_greedy_sample_kernel draft_token_ids target_argmax
           bonus_token_ids is_greedy max_spec_len o r) r.
Proof.
  intros Hr.
  apply (launch_row_is_own_program max_spec_len
           (fun i => load false is_greedy i)
           (fun i p => load 0%Z draft_token_ids (i * max_spec_len + p))
           (greedy_accepts draft_token_ids target_argmax max_spec_len)
           (fun i p => load 0%Z target_argmax (i * max_spec_len + p))
           (fun i => load 0%Z bonus_token_ids i)); [|done].
  intros o1 i. rewrite greedy_kernel_verdict.
  by destruct (load false is_greedy i).
Qed.

Lemma greedy_launch_rows_independent_witness :
  row (2 + 1)
      (launch (rejection_greedy_sample_kernel [5; 7; 3; 4]%Z [5; 9; 3; 4]%Z
                 [42; 43]%Z [true; true] 2) 2
              (replicate 6 PLACEHOLDER_TOKEN_ID)) 1
  = row (2 + 1)
        (rejection_greedy_sample_kernel [5; 7; 3; 4]%Z [5; 9; 3; 4]%Z
           [42; 43]%Z [true; true] 2 (replicate 6 PLACEHOLDER_TOKEN_ID) 1) 1.
Proof.
  apply (greedy_launch_rows_independent [5; 7; 3; 4]%Z [5; 9; 3; 4]%Z
           [42; 43]%Z [true; true] 2 2 (replicate 6 PLACEHOLDER_TOKEN_ID) 1).
  lia.
Defined.

(** The same for the random kernel. *)
Theorem random_launch_rows_independent {T : Type} `{Arith T}
    (draft_token_ids : list Z) (draft_probs : option (list T))
    (target_probs : list T) (bonus_token_ids recovered_token_ids : list Z)
    (uniform_probs : list T) (is_greedy : list bool)
    (max_spec_len vocab_size batch_size : nat) (IS_NGRAM : bool)
    (o : list Z) (r : nat) :
  r < batch_size ->
  row (max_spec_len + 1)
      (launch (rejection_random_sample_kernel draft_token_ids draft_probs
                 target_probs bonus_token_ids recovered_token_ids
                 uniform_probs is_greedy max_spec_len vocab_size IS_NGRAM)
              batch_size o) r
  = row (max_spec_len + 1)
        (rejection_random_sample_kernel draft_token_ids draft_probs
           target_probs bonus_token_ids recovered_token_ids uniform_probs
           is_greedy max_spec_len vocab_size IS_NGRAM o r) r.
Proof.
  intros Hr.
  apply (launch_row_is_own_program max_spec_len
           (fun i => negb (load false is_greedy i))
           (fun i p => load 0%Z draft_token_ids (i * max_spec_len + p))
           (random_accepts draft_token_ids draft_probs target_probs
              uniform_probs max_spec_len vocab_size IS_NGRAM)
           (fun i p => load 0%Z recovered_token_ids (i * max_spec_len + p))
           (fun i => load 0%Z bonus_token_ids i)); [|done].
  intros o1 i. rewrite random_kernel_verdict.
  by destruct (load false is_greedy i).
Qed.

Lemma random_launch_rows_independent_witness :
  row (2 + 1)
      (launch (rejection_random_sample_kernel (T := Q) [0; 0; 1; 1]%Z None
                 [1 # 4; 3 # 4; 1 # 4; 3 # 4; 1 # 4; 3 # 4; 1 # 4; 3 # 4]%Q
                 [42; 43]%Z [1; 1; 0; 0]%Z [1 # 2; 1 # 2; 1 # 2; 1 # 2]%Q
                 [false; false] 2 2 true) 2
              (replicate 6 PLACEHOLDER_TOKEN_ID)) 1
  = row (2 + 1)
        (rejection_random_sample_kernel (T := Q) [0; 0; 1; 1]%Z None
           [1 # 4; 3 # 4; 1 # 4; 3 # 4; 1 # 4; 3 # 4; 1 # 4; 3 # 4]%Q
           [42; 43]%Z [1; 1; 0; 0]%Z [1 # 2; 1 # 2; 1 # 2; 1 # 2]%Q
           [false; false] 2 2 true (replicate 6 PLACEHOLDER_TOKEN_ID) 1) 1.
Proof.
  apply (random_launch_rows_independent (T := Q) [0; 0; 1; 1]%Z None
           [1 # 4; 3 # 4; 1 # 4; 3 # 4; 1 # 4; 3 # 4; 1 # 4; 3 # 4]%Q
           [42; 43]%Z [1; 1; 0; 0]%Z [1 # 2; 1 # 2; 1 # 2; 1 # 2]%Q
           [false; false] 2 2 2 true (replicate 6 PLACEHOLDER_TOKEN_ID) 1).
  lia.
Defined.

(** ** The shape of the output *)

Lemma verdict_kernel_length tok acc rep base bonus w o :
  length (verdict_kernel tok acc rep base bonus w o) = length o.
Proof.
  destruct (verdict_kernel_shape tok acc rep base bonus w o)
    as (k & v & _ & _ & _ & _ & ->).
  by rewrite length_store, length_accept_writes.
Qed.

Lemma greedy_kernel_length draft_token_ids target_argmax bonus_token_ids
    is_greedy max_spec_len o seq_idx :
  length (rejection_greedy_sample_kernel draft_token_ids target_argmax
            bonus_token_ids is_greedy max_spec_len o seq_idx) = length o.
Proof.
  rewrite greedy_kernel_verdict.
  destruct (negb _); [done | apply verdict_kernel_length].
Qed.

Lemma random_kernel_length {T : Type} `{Arith T} draft_token_ids
    (draft_probs : option (list T)) target_probs bonus_token_ids
    recovered_token_ids uniform_probs is_greedy max_spec_len vocab_size
    IS_NGRAM o seq_idx :
  length (rejection_random_sample_kernel draft_token_ids draft_probs
            target_probs bonus_token_ids recovered_token_ids uniform_probs
            is_greedy max_spec_len vocab_size IS_NGRAM o seq_idx) = length o.
Proof.
  rewrite random_kernel_verdict.
  destruct (load false is_greedy seq_idx); [done | apply verdict_kernel_length].
Qed.

Lemma launch_length (K : list Z -> nat -> list Z) n o :
  (forall o i, length (K o i) = length o) ->
  length (launch K n o) = length o.
Proof.
  intros HK. unfold launch. revert o.
  induction (seq 0 n) as [|i l IH]; intros o; [done|].
  simpl. by rewrite IH, HK.
Qed.

Lemma length_rejection_sample {T : Type} `{Arith T}
    (batch_size max_spec_len vocab_size : nat)
    (draft_token_ids : list Z) (num_draft_tokens : list nat)
    (draft_probs : option (list T)) (target_probs : list T)
    (bonus_token_ids : list Z) (sampling_metadata : SamplingMetadata T)
    (rand_default exp_default : list T) :
  length (rejection_sample batch_size max_spec_len vocab_size draft_token_ids
            num_draft_tokens draft_probs target_probs bonus_token_ids
            sampling_metadata rand_default exp_default)
  = batch_size * (max_spec_len + 1).
Proof.
  unfold rejection_sample.
  set (o1 := if negb (all_random sampling_metadata) then _ else _).
  assert (H1 : length o1 = batch_size * (max_spec_len + 1)).
  { subst o1. destruct (negb (all_random sampling_metadata)).
    - rewrite launch_length by (intros; apply greedy_kernel_length).
      apply length_replicate.
    - apply length_replicate. }
  destruct (_ && _)%bool; [done|].
  rewrite launch_length by (intros; apply random_kernel_length). done.
Qed.

(** ** Rows the flags leave out *)

(** [all_random] set on a batch with a greedy request, or [all_greedy] set
    on a batch with a random request: no kernel writes the row of that
    request, which stays all placeholders. *)
Theorem row_left_out_by_flags_stays_blank {T : Type} `{Arith T}
    (batch_size max_spec_len vocab_size : nat)
    (draft_token_ids : list Z) (num_draft_tokens : list nat)
    (draft_probs : option (list T)) (target_probs : list T)
    (bonus_token_ids : list Z) (sampling_metadata : SamplingMetadata T)
    (rand_default exp_default : list T) (r : nat) :
  r < batch_size ->
  (all_random sampling_metadata = true
   /\ load false (is_greedy_of sampling_metadata) r = true)
  \/ (all_random sampling_metadata = false
      /\ all_greedy sampling_metadata = true
      /\ load false (is_greedy_of sampling_metadata) r = false) ->
  blank_row
    (rejection_sample batch_size max_spec_len vocab_size draft_token_ids
       num_draft_tokens draft_probs target_probs bonus_token_ids
       sampling_metadata rand_default exp_default)
    max_spec_len r.
Proof.
  intros Hr Hflags. unfold rejection_sample.
  set (o0 := replicate (batch_size * (max_spec_len + 1)) PLACEHOLDER_TOKEN_ID).
  set (flags := is_greedy_of sampling_metadata) in *.
  assert (Hlen0 : length o0 = batch_size * (max_spec_len + 1))
    by apply length_replicate.
  assert (Hblank0 : forall i, i < batch_size -> blank_row o0 max_spec_len i).
  { intros i Hi. apply blank_row_replicate.
    pose proof (row_in_range batch_size max_spec_len i Hi). lia. }
  destruct Hflags as [[Hrand Hg]|(Hrand & Hgreedy & Hg)];
    rewrite Hrand; simpl negb; cbv iota.
  - simpl andb. cbv iota.
    match goal with
    | |- blank_row
           (launch (rejection_random_sample_kernel ?d ?dp ?tp ?b ?rec ?u ?f ?w ?v ?ng)
                   _ _) _ _ =>
        destruct (random_launch_rows d dp tp b rec u f w v batch_size ng o0 Hlen0)
          as [_ Hrows]
    end.
    { intros i Hi _. by apply Hblank0. }
    destruct (Hrows r Hr) as [_ Hsame].
    apply (blank_row_same max_spec_len o0); [by apply Hsame | by apply Hblank0].
  - rewrite Hgreedy. simpl andb. cbv iota.
    destruct (greedy_launch_rows draft_token_ids
                (argmax_last vocab_size target_probs (batch_size * max_spec_len))
                bonus_token_ids flags max_spec_len batch_size o0 Hlen0)
      as [_ Hrows].
    { intros i Hi _. by apply Hblank0. }
    destruct (Hrows r Hr) as [_ Hsame].
    apply (blank_row_same max_spec_len o0); [by apply Hsame | by apply Hblank0].
Qed.

Lemma row_left_out_by_flags_stays_blank_witness :
  blank_row
    (rejection_sample (T := Q) 1 2 2 [1; 0]%Z [2] None
       [1 # 4; 3 # 4; 1 # 2; 1 # 2]%Q [7]%Z
       (mkSamplingMetadata [(-1)%Q] false true [])
       [1 # 2; 1 # 2]%Q [1; 1]%Q)
    2 0.
Proof.
  apply (row_left_out_by_flags_stays_blank (T := Q)).
  - lia.
  - left. split; reflexivity.
Defined.

(** ** Rows with a rejection *)

(** A row of the draft matrix, on a blank output row, verified by the
    kernel its mode selects: if position [p] is the first one rejected, the
    output row is the [p] accepted draft tokens, then the replacement (the
    target arg-max of position [p] in a greedy row, the recovered token of
    position [p] in a random row), then placeholders; the bonus token is
    not written.  With a real replacement token the extracted row has
    [p + 1] tokens. *)
Theorem rejected_row_ends_with_replacement {T : Type} `{Arith T}
    (draft_token_ids target_argmax : list Z) (draft_probs : option (list T))
    (target_probs : list T) (bonus_token_ids recovered_token_ids : list Z)
    (uniform_probs : list T) (is_greedy : list bool)
    (max_spec_len vocab_size batch_size : nat) (IS_NGRAM : bool)
    (o : list Z) (seq_idx p : nat) :
  length o = batch_size * (max_spec_len + 1) ->
  seq_idx < batch_size ->
  blank_row o max_spec_len seq_idx ->
  p < max_spec_len ->
  (forall q, q <= p ->
     load 0%Z draft_token_ids (seq_idx * max_spec_len + q)
     <> PLACEHOLDER_TOKEN_ID) ->
  (forall q, q <= p ->
     (if load false is_greedy seq_idx
      then greedy_accepts draft_token_ids target_argmax max_spec_len seq_idx q
      else random_accepts draft_token_ids draft_probs target_probs
             uniform_probs max_spec_len vocab_size IS_NGRAM seq_idx q)
     = negb (q =? p)) ->
  let o' :=
    if load false is_greedy seq_idx
    then rejection_greedy_sample_kernel draft_token_ids target_argmax
           bonus_token_ids is_greedy max_spec_len o seq_idx
    else rejection_random_sample_kernel draft_token_ids draft_probs
           target_probs bonus_token_ids recovered_token_ids uniform_probs
           is_greedy max_spec_len vocab_size IS_NGRAM o seq_idx in
  let replacement :=
    if load false is_greedy seq_idx
    then load 0%Z target_argmax (seq_idx * max_spec_len + p)
    else load 0%Z recovered_token_ids (seq_idx * max_spec_len + p) in
  let accepted := draft_prefix draft_token_ids max_spec_len seq_idx p in
  row (max_spec_len + 1) o' seq_idx
  = accepted ++ [replacement]
    ++ replicate (max_spec_len - p) PLACEHOLDER_TOKEN_ID
  /\ (replacement <> PLACEHOLDER_TOKEN_ID ->
      parse_row (row (max_spec_len + 1) o' seq_idx) = accepted ++ [replacement]).
Proof.
  intros Hlen Hseq Hblank Hp Hreal Hverdict o' replacement accepted.
  pose proof (row_in_range batch_size max_spec_len seq_idx Hseq) as Hrow.
  set (tok := fun q => load 0%Z draft_token_ids (seq_idx * max_spec_len + q)).
  set (base := seq_idx * (max_spec_len + 1)).
  assert (Hstore : o' = store (accept_writes tok base p o) (base + p) replacement).
  { subst o' replacement. destruct (load false is_greedy seq_idx) eqn:Hg.
    - rewrite greedy_kernel_verdict, Hg. simpl negb. cbv iota.
      apply (verdict_kernel_rejected tok
               (greedy_accepts draft_token_ids target_argmax max_spec_len seq_idx)
               (fun q => load 0%Z target_argmax (seq_idx * max_spec_len + q))
               base (load 0%Z bonus_token_ids seq_idx) max_spec_len o p);
        [done| |exact (Hreal p (Nat.le_refl p))|].
      + intros q Hq. split; [apply (Hreal q); lia|].
        rewrite Hverdict by lia. rewrite (proj2 (Nat.eqb_neq q p)) by lia. done.
      + rewrite Hverdict by lia. by rewrite Nat.eqb_refl.
    - rewrite random_kernel_verdict, Hg.
      apply (verdict_kernel_rejected tok
               (random_accepts draft_token_ids draft_probs target_probs
                  uniform_probs max_spec_len vocab_size IS_NGRAM seq_idx)
               (fun q => load 0%Z recovered_token_ids (seq_idx * max_spec_len + q))
               base (load 0%Z bonus_token_ids seq_idx) max_spec_len o p);
        [done| |exact (Hreal p (Nat.le_refl p))|].
      + intros q Hq. split; [apply (Hreal q); lia|].
        rewrite Hverdict by lia. rewrite (proj2 (Nat.eqb_neq q p)) by lia. done.
      + rewrite Hverdict by lia. by rewrite Nat.eqb_refl. }
  assert (Hroweq : row (max_spec_len + 1) o' seq_idx
            = accepted ++ [replacement]
              ++ replicate (max_spec_len - p) PLACEHOLDER_TOKEN_ID).
  { rewrite Hstore.
    apply (written_row tok seq_idx max_spec_len o p replacement).
    - lia.
    - lia.
    - done.
    - apply length_draft_prefix.
    - intros q Hq. by apply load_draft_prefix. }
  split; [done|]. intros Hrep. rewrite Hroweq, parse_row_app.
  - simpl. apply Z.eqb_neq in Hrep. rewrite Hrep.
    by rewrite parse_row_placeholders.
  - unfold accepted, draft_prefix. apply Forall_forall.
    intros x Hx. apply list_elem_of_fmap in Hx as (q & -> & Hq).
    apply elem_of_seq in Hq. apply Hreal. lia.
Qed.

Lemma rejected_row_ends_with_replacement_witness :
  let o' :=
    if load false [true] 0
    then rejection_greedy_sample_kernel [5; 7]%Z [5; 9]%Z [42]%Z [true] 2
           (replicate 3 PLACEHOLDER_TOKEN_ID) 0
    else rejection_random_sample_kernel (T := Q) [5; 7]%Z None [] [42]%Z []
           [] [true] 2 8 true (replicate 3 PLACEHOLDER_TOKEN_ID) 0 in
  let replacement :=
    if load false [true] 0
    then load 0%Z [5; 9]%Z (0 * 2 + 1)
    else load 0%Z [] (0 * 2 + 1) in
  let accepted := draft_prefix [5; 7]%Z 2 0 1 in
  row (2 + 1) o' 0
  = accepted ++ [replacement] ++ replicate (2 - 1) PLACEHOLDER_TOKEN_ID
  /\ (replacement <> PLACEHOLDER_TOKEN_ID ->
      parse_row (row (2 + 1) o' 0) = accepted ++ [replacement]).
Proof.
  apply (rejected_row_ends_with_replacement (T := Q)
           [5; 7]%Z [5; 9]%Z None [] [42]%Z [] [] [true] 2 8 1 true
           (replicate 3 PLACEHOLDER_TOKEN_ID) 0 1).
  - reflexivity.
  - lia.
  - intros j Hj. destruct j as [|[|[|j]]]; [reflexivity..|lia].
  - lia.
  - intros q Hq. destruct q as [|[|q]]; [discriminate..|lia].
  - intros q Hq. destruct q as [|[|q]]; [reflexivity..|lia].
Defined.

(** ** compute_probs: the cells the grid writes *)

Lemma sum_take_S lens r :
  r < length lens ->
  sum_list (take (S r) lens) = sum_list (take r lens) + load 0 lens r.
Proof.
  intros Hr. destruct (lookup_lt_is_Some_2 lens r Hr) as [n Hn].
  rewrite (take_S_r _ _ _ Hn), sum_list_with_app.
  unfold load. rewrite Hn. simpl. lia.
Qed.

Lemma sum_take_mono lens r r' :
  r <= r' -> sum_list (take r lens) <= sum_list (take r' lens).
Proof.
  induction 1 as [|r' _ IH]; [done|].
  destruct (decide (r' < length lens)) as [Hlt|Hge].
  - rewrite sum_take_S by done. lia.
  - rewrite (take_ge lens (S r')) by lia.
    by rewrite (take_ge lens r') in IH by lia.
Qed.

Lemma sum_take_le_total lens r : sum_list (take r lens) <= sum_list lens.
Proof.
  replace (sum_list lens) with (sum_list (take r lens ++ drop r lens))
    by (by rewrite take_drop).
  rewrite sum_list_with_app. lia.
Qed.

(** The slices of two requests do not overlap. *)
Lemma packed_rows_injective lens r r' pos pos' :
  r < length lens -> r' < length lens ->
  pos < load 0 lens r -> pos' < load 0 lens r' ->
  sum_list (take r lens) + pos = sum_list (take r' lens) + pos' ->
  r = r' /\ pos = pos'.
Proof.
  intros Hr Hr' Hp Hp' Heq.
  destruct (lt_eq_lt_dec r r') as [[Hlt| ->]|Hgt].
  - pose proof (sum_take_mono lens (S r) r' ltac:(lia)) as Hm.
    rewrite sum_take_S in Hm by done. lia.
  - lia.
  - pose proof (sum_take_mono lens (S r') r ltac:(lia)) as Hm.
    rewrite sum_take_S in Hm by done. lia.
Qed.

Lemma packed_row_lt_total lens r pos :
  r < length lens -> pos < load 0 lens r ->
  sum_list (take r lens) + pos < sum_list lens.
Proof.
  intros Hr Hp. pose proof (sum_take_le_total lens (S r)) as Ht.
  rewrite sum_take_S in Ht by done. lia.
Qed.

Lemma cell_of_row_unique (vocab_size a a' off off' : nat) :
  off < vocab_size -> off' < vocab_size ->
  a * vocab_size + off = a' * vocab_size + off' -> a = a' /\ off = off'.
Proof.
  intros Ho Ho' Heq.
  destruct (lt_eq_lt_dec a a') as [[Hlt| ->]|Hgt]; [nia|lia|nia].
Qed.

(** Two in-range programs of the grid of [compute_probs_kernel] that store
    to the same cell are the same program at the same lane, and every cell
    stored lies inside the [num_tokens, vocab_size] buffer: the programs of
    the grid write disjoint rows of the output. *)
Theorem compute_probs_programs_write_disjoint_cells
    (num_draft_tokens : list nat) (vocab_size : nat)
    (req_idx pos off req_idx' pos' off' : nat) :
  let cu := cu_num_draft_tokens_of num_draft_tokens in
  req_idx < length num_draft_tokens ->
  req_idx' < length num_draft_tokens ->
  in_range cu req_idx pos -> in_range cu req_idx' pos' ->
  off < vocab_size -> off' < vocab_size ->
  packed_offset cu vocab_size req_idx pos off
    < sum_list num_draft_tokens * vocab_size
  /\ (packed_offset cu vocab_size req_idx pos off
      = packed_offset cu vocab_size req_idx' pos' off' ->
      req_idx = req_idx' /\ pos = pos' /\ off = off').
Proof.
  intros cu Hr Hr' Hin Hin' Ho Ho'.
  apply in_range_cumsum in Hin; [|done].
  apply in_range_cumsum in Hin'; [|done].
  unfold packed_offset, cu. rewrite !start_idx_cumsum by done.
  split.
  - pose proof (packed_row_lt_total num_draft_tokens req_idx pos Hr Hin). nia.
  - intros Heq. apply cell_of_row_unique in Heq as [Hrow ->]; [|done..].
    by apply packed_rows_injective in Hrow as [-> ->].
Qed.

Lemma compute_probs_programs_write_disjoint_cells_witness :
  let cu := cu_num_draft_tokens_of [2; 1] in
  packed_offset cu 3 0 1 2 < sum_list [2; 1] * 3
  /\ (packed_offset cu 3 0 1 2 = packed_offset cu 3 1 0 1 ->
      0 = 1 /\ 1 = 0 /\ 2 = 1).
Proof.
  apply (compute_probs_programs_write_disjoint_cells [2; 1] 3 0 1 2 1 0 1).
  - simpl. lia.
  - simpl. lia.
  - unfold in_range. simpl. lia.
  - unfold in_range. simpl. lia.
  - lia.
  - lia.
Defined.

Lemma lookup_eq_of_load {A} (d : A) (a b : list A) i j :
  i < length a -> j < length b -> load d a i = load d b j -> a !! i = b !! j.
Proof.
  intros Hi Hj. unfold load.
  destruct (lookup_lt_is_Some_2 a i Hi) as [x ->].
  destruct (lookup_lt_is_Some_2 b j Hj) as [y ->].
  simpl. by intros ->.
Qed.

Lemma row_eq_of_cells {A} (d : A) (w : nat) (mem l : list A) (r : nat) :
  length l = w -> r * w + w <= length mem ->
  (forall j, j < w -> load d mem (r * w + j) = load d l j) ->
  row w mem r = l.
Proof.
  intros Hl Hr Hcells. apply list_eq. intros j.
  destruct (decide (j < w)) as [Hj|Hj].
  - rewrite row_lookup by done.
    apply (lookup_eq_of_load d); [lia|lia|by apply Hcells].
  - rewrite !lookup_ge_None_2; [done|lia|].
    rewrite row_length by done. lia.
Qed.

Lemma load_logits_block {T : Type} `{Arith T} (masked_lane : nat -> T)
    logits vocab_size padded r off :
  off < vocab_size -> off < padded ->
  load (fof_Z 0) (logits_block masked_lane logits vocab_size padded r) off
  = load (fof_Z 0) logits (r * vocab_size + off).
Proof.
  intros Hv Hp. unfold logits_block, load at 1.
  rewrite list_lookup_fmap, lookup_seq_lt by done. simpl.
  by rewrite (proj2 (Nat.ltb_lt off vocab_size)) by done.
Qed.

(** A program of [compute_probs_kernel] keeps the size of the output
    buffer and stores only inside row [start_idx + pos]; at an out-of-range
    position it stores nothing. *)
Theorem compute_probs_kernel_writes_one_row {T : Type} `{Arith T}
    (tl_softmax : list T -> list T) (masked_lane : nat -> T)
    (logits temperature : list T) (cu_num_draft_tokens : list nat)
    (vocab_size PADDED_VOCAB_SIZE : nat) (output_prob_buf : list T)
    (req_idx pos : nat) :
  let r := start_idx cu_num_draft_tokens req_idx + pos in
  let buf' :=
    compute_probs_kernel tl_softmax masked_lane logits temperature
      cu_num_draft_tokens vocab_size PADDED_VOCAB_SIZE output_prob_buf
      req_idx pos in
  length buf' = length output_prob_buf
  /\ (forall i, i < r * vocab_size \/ (r + 1) * vocab_size <= i ->
        buf' !! i = output_prob_buf !! i)
  /\ (~ in_range cu_num_draft_tokens req_idx pos -> buf' = output_prob_buf).
Proof.
  intros r buf'.
  assert (Hout : ~ in_range cu_num_draft_tokens req_idx pos ->
                 buf' = output_prob_buf)
    by apply compute_probs_kernel_out_of_range.
  destruct (decide (pos < load 0 cu_num_draft_tokens req_idx
                          - start_idx cu_num_draft_tokens req_idx))
    as [Hin|Hno].
  - change (in_range cu_num_draft_tokens req_idx pos) in Hin.
    pose proof (compute_probs_kernel_in_range tl_softmax masked_lane logits
                  temperature cu_num_draft_tokens vocab_size
                  PADDED_VOCAB_SIZE output_prob_buf req_idx pos Hin) as Heq.
    cbv zeta in Heq. fold buf' in Heq. fold (start_idx cu_num_draft_tokens req_idx) in Heq.
    fold r in Heq. rewrite Heq.
    split; [apply length_masked_store|]. split; [|done].
    intros i Hi. apply masked_store_outside. lia.
  - change (~ in_range cu_num_draft_tokens req_idx pos) in Hno.
    rewrite (Hout Hno). done.
Qed.

(** One program of [compute_probs_kernel] at an in-range position of a
    request with the greedy temperature copies the logits: whatever
    [PADDED_VOCAB_SIZE] not below [vocab_size] it is launched with, row
    [start_idx + pos] of the output is then row [start_idx + pos] of the
    logits, with no softmax. *)
Theorem compute_probs_kernel_greedy_row_copies_logits {T : Type} `{Arith T}
    (tl_softmax : list T -> list T) (masked_lane : nat -> T)
    (logits temperature : list T) (cu_num_draft_tokens : list nat)
    (vocab_size PADDED_VOCAB_SIZE : nat) (output_prob_buf : list T)
    (req_idx pos : nat) :
  let r := start_idx cu_num_draft_tokens req_idx + pos in
  in_range cu_num_draft_tokens req_idx pos ->
  vocab_size <= PADDED_VOCAB_SIZE ->
  feqb (load (fof_Z 0) temperature req_idx) (fof_Z GREEDY_TEMPERATURE) = true ->
  r * vocab_size + vocab_size <= length logits ->
  r * vocab_size + vocab_size <= length output_prob_buf ->
  row vocab_size
      (compute_probs_kernel tl_softmax masked_lane logits temperature
         cu_num_draft_tokens vocab_size PADDED_VOCAB_SIZE output_prob_buf
         req_idx pos)
      r
  = row vocab_size logits r.
Proof.
  intros r Hin Hpad Hgreedy Hlogits Hbuf.
  pose proof (compute_probs_kernel_in_range tl_softmax masked_lane logits
                temperature cu_num_draft_tokens vocab_size
                PADDED_VOCAB_SIZE output_prob_buf req_idx pos Hin) as Heq.
  cbv zeta in Heq. rewrite Hgreedy in Heq.
  fold (start_idx cu_num_draft_tokens req_idx) in Heq. fold r in Heq.
  rewrite Heq.
  apply (row_eq_of_cells (fof_Z 0)).
  - by apply row_length.
  - by rewrite length_masked_store.
  - intros j Hj. rewrite masked_store_inside by lia.
    rewrite load_row by done. apply load_logits_block; lia.
Qed.

Lemma compute_probs_kernel_greedy_row_copies_logits_witness :
  let r := start_idx [1; 2] 1 + 0 in
  row 2
      (compute_probs_kernel (T := Q) (fun x => x) (fun _ => 0%Q)
         [3; 5; 7; 9]%Q [1; -1]%Q [1; 2] 2 2 [0; 0; 0; 0]%Q 1 0)
      r
  = row 2 [3; 5; 7; 9]%Q r.
Proof.
  apply (compute_probs_kernel_greedy_row_copies_logits (T := Q) (fun x => x)
           (fun _ => 0%Q) [3; 5; 7; 9]%Q [1; -1]%Q [1; 2] 2 2
           [0; 0; 0; 0]%Q 1 0).
  - unfold in_range, load. simpl. lia.
  - lia.
  - reflexivity.
  - simpl. lia.
  - simpl. lia.
Defined.

(** ** Tokens written on rejection *)

Lemma argmax_from_bound {T : Type} `{Arith T} (l : list T) :
  forall best_i best i, best_i < i -> argmax_from best_i best i l < i + length l.
Proof.
  induction l as [|x l IH]; intros best_i best i Hb; simpl; [lia|].
  destruct (fltb best x).
  - specialize (IH i x (S i) ltac:(lia)). lia.
  - specialize (IH best_i best (S i) ltac:(lia)). lia.
Qed.

Lemma argmax_lt {T : Type} `{Arith T} (l : list T) :
  l <> [] -> argmax l < length l.
Proof.
  destruct l as [|x l]; [done|]. intros _. simpl.
  pose proof (argmax_from_bound l 0 x 1 ltac:(lia)). lia.
Qed.

Lemma load_map_seq {A} (d : A) (f : nat -> A) n i :
  i < n -> load d (map f (seq 0 n)) i = f i.
Proof.
  intros Hi. unfold load. by rewrite list_lookup_fmap, lookup_seq_lt by done.
Qed.

Lemma load_of_nat_nonneg {B} (f : B -> nat) (l : list B) i :
  (0 <= load 0%Z (map (fun r => Z.of_nat (f r)) l) i)%Z.
Proof.
  unfold load. rewrite list_lookup_fmap.
  destruct (l !! i); simpl; lia.
Qed.

(** The tokens the kernels write on rejection are indices into the
    vocabulary: every entry of [target_argmax] and of
    [recovered_token_ids] lies in [0, vocab_size), so it is never the
    placeholder. *)
Theorem replacement_tokens_are_vocabulary_indices {T : Type} `{Arith T}
    (batch_size max_spec_len vocab_size : nat) (target_probs probs q : list T)
    (i : nat) :
  0 < vocab_size ->
  i < batch_size * max_spec_len ->
  length target_probs = batch_size * max_spec_len * vocab_size ->
  length probs = batch_size * max_spec_len * vocab_size ->
  length q = batch_size * vocab_size ->
  (0 <= load 0%Z (argmax_last vocab_size target_probs
                    (batch_size * max_spec_len)) i
     < Z.of_nat vocab_size)%Z
  /\ (0 <= load 0%Z (recover_token_ids batch_size max_spec_len vocab_size
                       probs q) i
      < Z.of_nat vocab_size)%Z.
Proof.
  intros Hv Hi Htarget Hprobs Hq.
  assert (Hrow : forall mem : list T,
             length mem = batch_size * max_spec_len * vocab_size ->
             length (row vocab_size mem i) = vocab_size).
  { intros mem Hmem. apply row_length. nia. }
  assert (Hb : i / max_spec_len < batch_size).
  { apply Nat.Div0.div_lt_upper_bound. lia. }
  split.
  - unfold argmax_last. rewrite load_map_seq by done.
    pose proof (argmax_lt (row vocab_size target_probs i)) as Hlt.
    rewrite Hrow in Hlt by done.
    assert (row vocab_size target_probs i <> []) as Hne.
    { intros Hnil. specialize (Hrow target_probs Htarget).
      rewrite Hnil in Hrow. simpl in Hrow. lia. }
    specialize (Hlt Hne). lia.
  - unfold recover_token_ids. rewrite load_map_seq by done.
    set (l := zip_with fdiv (row vocab_size probs i)
                (row vocab_size q (i / max_spec_len))).
    assert (Hl : length l = vocab_size).
    { unfold l. rewrite length_zip_with, Hrow by done.
      rewrite row_length by nia. lia. }
    pose proof (argmax_lt l) as Hlt. rewrite Hl in Hlt.
    assert (l <> []) as Hne by (intros Hnil; rewrite Hnil in Hl; simpl in Hl; lia).
    specialize (Hlt Hne). lia.
Qed.

Lemma replacement_tokens_are_vocabulary_indices_witness :
  (0 <= load 0%Z (argmax_last 2 [1 # 4; 3 # 4; 1 # 2; 1 # 2]%Q (1 * 2)) 1
     < Z.of_nat 2)%Z
  /\ (0 <= load 0%Z (recover_token_ids 1 2 2 [1 # 4; 3 # 4; 1 # 2; 1 # 2]%Q
                       [1; 1]%Q) 1
      < Z.of_nat 2)%Z.
Proof.
  apply (replacement_tokens_are_vocabulary_indices (T := Q) 1 2 2
           [1 # 4; 3 # 4; 1 # 2; 1 # 2]%Q [1 # 4; 3 # 4; 1 # 2; 1 # 2]%Q
           [1; 1]%Q 1).
  - lia.
  - lia.
  - reflexivity.
  - reflexivity.
  - reflexivity.
Defined.

(** ** Every verified row yields a token *)

Lemma verdict_kernel_first_cell tok acc rep base bonus w o :
  base + w + 1 <= length o ->
  bonus <> PLACEHOLDER_TOKEN_ID ->
  (forall p, rep p <> PLACEHOLDER_TOKEN_ID) ->
  load 0%Z (verdict_kernel tok acc rep base bonus w o) base
  <> PLACEHOLDER_TOKEN_ID.
Proof.
  intros Hlen Hb Hrep.
  destruct (verdict_kernel_cells tok acc rep base bonus w o Hlen)
    as (k & v & Hk & Hacc & _ & Hv & _ & Hpre & Hat & _).
  destruct k as [|k].
  - rewrite Nat.add_0_r in Hat. rewrite Hat.
    destruct Hv as [[-> _]|(_ & _ & _ & ->)]; [done | apply Hrep].
  - specialize (Hpre 0 ltac:(lia)). rewrite Nat.add_0_r in Hpre.
    rewrite Hpre. by destruct (Hacc 0 ltac:(lia)).
Qed.

Section RowsWithTokens.
Variable w : nat.
Variable active : nat -> bool.
Variables (tok : nat -> nat -> Z) (acc : nat -> nat -> bool) (rep : nat -> nat -> Z).
Variable bon : nat -> Z.
Variable K : list Z -> nat -> list Z.
Hypothesis K_scan : forall o i,
  K o i = if active i
          then verdict_kernel (tok i) (acc i) (rep i) (i * (w + 1)) (bon i) w o
          else o.

Lemma launch_first_cell batch_size o r :
  r < batch_size ->
  length o = batch_size * (w + 1) ->
  load 0%Z (launch K batch_size o) (r * (w + 1))
  = load 0%Z (K o r) (r * (w + 1)).
Proof.
  intros Hr Hlen.
  pose proof (launch_row_is_own_program w active tok acc rep bon K K_scan
                batch_size o r Hr) as Hrow.
  apply (f_equal (fun l => load 0%Z l 0)) in Hrow.
  rewrite !load_row in Hrow by lia. by rewrite Nat.add_0_r in Hrow.
Qed.

Lemma launch_first_cell_active batch_size o r :
  r < batch_size ->
  length o = batch_size * (w + 1) ->
  active r = true ->
  bon r <> PLACEHOLDER_TOKEN_ID ->
  (forall p, rep r p <> PLACEHOLDER_TOKEN_ID) ->
  load 0%Z (launch K batch_size o) (r * (w + 1)) <> PLACEHOLDER_TOKEN_ID.
Proof.
  intros Hr Hlen Ha Hb Hrep.
  rewrite launch_first_cell, K_scan, Ha by done.
  apply verdict_kernel_first_cell; [|done..].
  pose proof (row_in_range batch_size w r Hr). lia.
Qed.

Lemma launch_first_cell_inactive batch_size o r :
  r < batch_size ->
  length o = batch_size * (w + 1) ->
  active r = false ->
  load 0%Z (launch K batch_size o) (r * (w + 1)) = load 0%Z o (r * (w + 1)).
Proof.
  intros Hr Hlen Ha. by rewrite launch_first_cell, K_scan, Ha.
Qed.
End RowsWithTokens.

Lemma placeholder_negative : PLACEHOLDER_TOKEN_ID = (-1)%Z.
Proof. reflexivity. Qed.

(** A request whose verifier kernel is launched, with a real bonus token,
    gets at least one token: the first cell of its output row is a real
    token, so [parse_output] never returns an empty list for it. *)
Theorem verified_rows_are_never_empty {T : Type} `{Arith T}
    (batch_size max_spec_len vocab_size : nat)
    (draft_token_ids : list Z) (num_draft_tokens : list nat)
    (draft_probs : option (list T)) (target_probs : list T)
    (bonus_token_ids : list Z) (sampling_metadata : SamplingMetadata T)
    (rand_default exp_default : list T) (r : nat) :
  r < batch_size ->
  load 0%Z bonus_token_ids r <> PLACEHOLDER_TOKEN_ID ->
  (if load false (is_greedy_of sampling_metadata) r
   then all_random sampling_metadata = false
   else all_random sampling_metadata = true
        \/ all_greedy sampling_metadata = false) ->
  parse_row
    (row (max_spec_len + 1)
       (rejection_sample batch_size max_spec_len vocab_size draft_token_ids
          num_draft_tokens draft_probs target_probs bonus_token_ids
          sampling_metadata rand_default exp_default) r)
  <> [].
Proof.
  intros Hr Hbonus Hflags.
  set (out := rejection_sample _ _ _ _ _ _ _ _ _ _ _).
  assert (Hout : length out = batch_size * (max_spec_len + 1))
    by apply length_rejection_sample.
  assert (Hcell : load 0%Z out (r * (max_spec_len + 1)) <> PLACEHOLDER_TOKEN_ID).
  2:{ pose proof (row_in_range batch_size max_spec_len r Hr) as Hin.
      unfold row. unfold load in Hcell.
      destruct (lookup_lt_is_Some_2 out (r * (max_spec_len + 1)) ltac:(lia))
        as [c Hc].
      rewrite Hc in Hcell. simpl in Hcell.
      rewrite (drop_S _ _ _ Hc), Nat.add_1_r. cbn [take parse_row]. apply Z.eqb_neq in Hcell. by rewrite Hcell. }
  subst out. unfold rejection_sample. unfold rejection_sample in Hout.
  set (o0 := replicate (batch_size * (max_spec_len + 1)) PLACEHOLDER_TOKEN_ID)
    in *.
  set (flags := is_greedy_of sampling_metadata) in *.
  set (target_argmax :=
         argmax_last vocab_size target_probs (batch_size * max_spec_len)) in *.
  set (recovered :=
         recover_token_ids batch_size max_spec_len vocab_size
           (residual_probs batch_size max_spec_len vocab_size draft_token_ids
              draft_probs target_probs)
           (draw_q vocab_size num_draft_tokens (generators sampling_metadata)
              exp_default)) in *.
  set (uniform := draw_uniform_probs max_spec_len num_draft_tokens
                    (generators sampling_metadata) rand_default) in *.
  set (is_ngram := match draft_probs with None => true | Some _ => false end)
    in *.
  set (Kg := rejection_greedy_sample_kernel draft_token_ids target_argmax
               bonus_token_ids flags max_spec_len) in *.
  set (Kr := rejection_random_sample_kernel draft_token_ids draft_probs
               target_probs bonus_token_ids recovered uniform flags
               max_spec_len vocab_size is_ngram) in *.
  assert (Hlen0 : length o0 = batch_size * (max_spec_len + 1))
    by apply length_replicate.
  assert (HKg : forall o i,
             Kg o i
             = if load false flags i
               then verdict_kernel
                      (fun p => load 0%Z draft_token_ids (i * max_spec_len + p))
                      (greedy_accepts draft_token_ids target_argmax max_spec_len i)
                      (fun p => load 0%Z target_argmax (i * max_spec_len + p))
                      (i * (max_spec_len + 1)) (load 0%Z bonus_token_ids i)
                      max_spec_len o
               else o).
  { intros o i. unfold Kg. rewrite greedy_kernel_verdict.
    by destruct (load false flags i). }
  assert (HKr : forall o i,
             Kr o i
             = if negb (load false flags i)
               then verdict_kernel
                      (fun p => load 0%Z draft_token_ids (i * max_spec_len + p))
                      (random_accepts draft_token_ids draft_probs target_probs
                         uniform max_spec_len vocab_size is_ngram i)
                      (fun p => load 0%Z recovered (i * max_spec_len + p))
                      (i * (max_spec_len + 1)) (load 0%Z bonus_token_ids i)
                      max_spec_len o
               else o).
  { intros o i. unfold Kr. rewrite random_kernel_verdict.
    by destruct (load false flags i). }
  assert (Hargmax : forall p,
             load 0%Z target_argmax (r * max_spec_len + p)
             <> PLACEHOLDER_TOKEN_ID).
  { intros p. rewrite placeholder_negative.
    pose proof (load_of_nat_nonneg
                  (fun i => argmax (row vocab_size target_probs i))
                  (seq 0 (batch_size * max_spec_len)) (r * max_spec_len + p))
      as Hge.
    change (0 <= load 0%Z target_argmax (r * max_spec_len + p))%Z in Hge.
    lia. }
  assert (Hrecovered : forall p,
             load 0%Z recovered (r * max_spec_len + p) <> PLACEHOLDER_TOKEN_ID).
  { intros p. rewrite placeholder_negative.
    pose proof (load_of_nat_nonneg
                  (fun i => argmax
                     (zip_with fdiv
                        (row vocab_size
                           (residual_probs batch_size max_spec_len vocab_size
                              draft_token_ids draft_probs target_probs) i)
                        (row vocab_size
                           (draw_q vocab_size num_draft_tokens
                              (generators sampling_metadata) exp_default)
                           (i / max_spec_len))))
                  (seq 0 (batch_size * max_spec_len)) (r * max_spec_len + p))
      as Hge.
    change (0 <= load 0%Z recovered (r * max_spec_len + p))%Z in Hge. lia. }
  assert (Hg1 : length (launch Kg batch_size o0) = batch_size * (max_spec_len + 1)).
  { rewrite launch_length; [done|]. intros o i. apply greedy_kernel_length. }
  destruct (load false flags r) eqn:Hmode.
  - rewrite Hflags. simpl negb. cbv iota.
    assert (Hfirst : load 0%Z (launch Kg batch_size o0) (r * (max_spec_len + 1))
                     <> PLACEHOLDER_TOKEN_ID).
    { apply (launch_first_cell_active max_spec_len (fun i => load false flags i)
               _ _ _ (fun i => load 0%Z bonus_token_ids i) Kg HKg);
        done. }
    destruct (all_greedy sampling_metadata); simpl andb; cbv iota; [done|].
    rewrite (launch_first_cell_inactive max_spec_len
               (fun i => negb (load false flags i))
               _ _ _ (fun i => load 0%Z bonus_token_ids i) Kr HKr);
      [done|done|done|]. by rewrite Hmode.
  - assert (Hactive : negb (load false flags r) = true) by (by rewrite Hmode).
    destruct (all_random sampling_metadata) eqn:Hrand; simpl negb; cbv iota.
    + simpl andb. cbv iota.
      apply (launch_first_cell_active max_spec_len
               (fun i => negb (load false flags i))
               _ _ _ (fun i => load 0%Z bonus_token_ids i) Kr HKr);
        done.
    + destruct Hflags as [?|Hng]; [done|]. rewrite Hng. simpl andb. cbv iota.
      apply (launch_first_cell_active max_spec_len
               (fun i => negb (load false flags i))
               _ _ _ (fun i => load 0%Z bonus_token_ids i) Kr HKr);
        done.
Qed.

Lemma verified_rows_are_never_empty_witness :
  parse_row
    (row (2 + 1)
       (rejection_sample (T := Q) 1 2 2 [1; 0]%Z [2] None
          [1 # 4; 3 # 4; 1 # 2; 1 # 2]%Q [7]%Z
          (mkSamplingMetadata [1%Q] false true [])
          [1 # 2; 1 # 2]%Q [1; 1]%Q) 0)
  <> [].
Proof.
  apply (verified_rows_are_never_empty (T := Q)).
  - lia.
  - discriminate.
  - vm_compute. left. reflexivity.
Defined.

(** ** Per-request generators *)

Lemma length_write_slice {A} (mem vals : list A) start :
  start + length vals <= length mem ->
  length (write_slice mem start vals) = length mem.
Proof.
  intros Hfit. unfold write_slice.
  rewrite !length_app, length_take, length_drop. lia.
Qed.

Lemma write_slice_outside {A} (mem vals : list A) start i :
  start + length vals <= length mem ->
  i < start \/ start + length vals <= i ->
  write_slice mem start vals !! i = mem !! i.
Proof.
  intros Hfit Hi. unfold write_slice. destruct Hi as [Hi|Hi].
  - rewrite lookup_app_l by (rewrite length_take; lia).
    by rewrite lookup_take_lt.
  - rewrite lookup_app_r by (rewrite length_take; lia).
    rewrite length_take, Nat.min_l by lia.
    rewrite lookup_app_r by lia. rewrite lookup_drop. f_equal. lia.
Qed.

Lemma write_slice_inside {A} (mem vals : list A) start j :
  start + length vals <= length mem -> j < length vals ->
  write_slice mem start vals !! (start + j) = vals !! j.
Proof.
  intros Hfit Hj. unfold write_slice.
  rewrite lookup_app_r by (rewrite length_take; lia).
  rewrite length_take, Nat.min_l by lia.
  rewrite lookup_app_l by lia. f_equal. lia.
Qed.

(** Slices written into the rows of the seeded requests leave the other
    rows as they are. *)
Lemma seeded_slices_frame {A B} (w n : nat) (cond : nat * B -> bool)
    (vals : nat * B -> list A) (r : nat) (gens : list (nat * B)) :
  Forall (fun ig => fst ig < n /\ fst ig <> r /\ length (vals ig) <= w) gens ->
  forall mem, length mem = n * w ->
    let mem' :=
      fold_left (fun u ig =>
                   if cond ig then write_slice u (fst ig * w) (vals ig) else u)
                gens mem in
    length mem' = n * w
    /\ forall j, j < w -> mem' !! (r * w + j) = mem !! (r * w + j).
Proof.
  induction 1 as [|ig gens (Hn & Hr & Hv) _ IH]; intros mem Hmem; [done|].
  simpl. destruct (cond ig).
  - assert (Hfit : fst ig * w + length (vals ig) <= length mem) by nia.
    destruct (IH (write_slice mem (fst ig * w) (vals ig))) as [Hlen Hrows].
    { by rewrite length_write_slice. }
    split; [done|]. intros j Hj. rewrite Hrows by done.
    apply write_slice_outside; [done|].
    destruct (decide (r < fst ig)); [left|right]; nia.
  - by apply IH.
Qed.

Lemma row_eq_of_lookups {A} (w : nat) (mem mem' : list A) (r : nat) :
  (forall j, j < w -> mem' !! (r * w + j) = mem !! (r * w + j)) ->
  row w mem' r = row w mem r.
Proof.
  intros Hrows. apply list_eq. intros j.
  destruct (decide (j < w)) as [Hj|Hj].
  - rewrite !row_lookup by done. by apply Hrows.
  - unfold row. by rewrite !lookup_take_ge by lia.
Qed.

(** Re-drawing for the seeded requests touches only their rows: the row of
    a request without a generator keeps the draws of [torch.rand] in
    [uniform_probs] and of [exponential_] in [q]. *)
Theorem unseeded_rows_keep_default_draws {T : Type} `{Arith T}
    (batch_size max_spec_len vocab_size : nat) (num_draft_tokens : list nat)
    (gens : list (nat * generator T)) (rand_default exp_default : list T)
    (r : nat) :
  length rand_default = batch_size * max_spec_len ->
  length exp_default = batch_size * vocab_size ->
  Forall (fun ig => fst ig < batch_size /\ fst ig <> r
                    /\ load 0 num_draft_tokens (fst ig) <= max_spec_len)
         gens ->
  row max_spec_len
      (draw_uniform_probs max_spec_len num_draft_tokens gens rand_default) r
  = row max_spec_len rand_default r
  /\ row vocab_size (draw_q vocab_size num_draft_tokens gens exp_default) r
     = row vocab_size exp_default r.
Proof.
  intros Hrand Hexp Hgens. split.
  - apply row_eq_of_lookups.
    apply (seeded_slices_frame max_spec_len batch_size
             (fun ig => 0 <? load 0 num_draft_tokens (fst ig))
             (fun ig => take (load 0 num_draft_tokens (fst ig))
                          (gen_uniform (snd ig)
                             (load 0 num_draft_tokens (fst ig))))
             r gens); [|done].
    eapply Forall_impl; [exact Hgens|].
    intros ig (Hn & Hr & Hw). repeat split; [done..|].
    rewrite length_take. lia.
  - apply row_eq_of_lookups.
    apply (seeded_slices_frame vocab_size batch_size
             (fun ig => 0 <? load 0 num_draft_tokens (fst ig))
             (fun ig => take vocab_size (gen_exponential (snd ig) vocab_size))
             r gens); [|done].
    eapply Forall_impl; [exact Hgens|].
    intros ig (Hn & Hr & Hw). repeat split; [done..|].
    rewrite length_take. lia.
Qed.

Lemma unseeded_rows_keep_default_draws_witness :
  row 2
      (draw_uniform_probs (T := Q) 2 [2; 1]
         [(0, mkGenerator (fun n => replicate n (1 # 3)%Q)
                          (fun n => replicate n 2%Q))]
         [1 # 2; 1 # 2; 1 # 2; 1 # 2]%Q) 1
  = row 2 [1 # 2; 1 # 2; 1 # 2; 1 # 2]%Q 1
  /\ row 3
       (draw_q (T := Q) 3 [2; 1]
          [(0, mkGenerator (fun n => replicate n (1 # 3)%Q)
                           (fun n => replicate n 2%Q))]
          [1; 1; 1; 1; 1; 1]%Q) 1
     = row 3 [1; 1; 1; 1; 1; 1]%Q 1.
Proof.
  apply (unseeded_rows_keep_default_draws (T := Q) 2 2 3 [2; 1]
           [(0, mkGenerator (fun n => replicate n (1 # 3)%Q)
                            (fun n => replicate n 2%Q))]
           [1 # 2; 1 # 2; 1 # 2; 1 # 2]%Q [1; 1; 1; 1; 1; 1]%Q 1).
  - reflexivity.
  - reflexivity.
  - repeat constructor; simpl; lia.
Defined.

(** One re-draw: the row of the seeded request. *)
Lemma seeded_step_row {A} (w batch_size n r : nat) (vals mem : list A) :
  length mem = batch_size * w -> r < batch_size -> n <= w ->
  length vals = n ->
  let mem' := if 0 <? n then write_slice mem (r * w) (take n vals) else mem in
  length mem' = batch_size * w
  /\ row w mem' r = vals ++ drop n (row w mem r).
Proof.
  intros Hmem Hr Hn Hvals. cbv zeta. rewrite take_ge by lia.
  destruct (0 <? n) eqn:Hpos.
  - assert (Hfit : r * w + length vals <= length mem) by nia.
    split; [by rewrite length_write_slice|].
    apply list_eq. intros j.
    destruct (decide (j < w)) as [Hj|Hj].
    + rewrite row_lookup by done.
      destruct (decide (j < n)) as [Hjn|Hjn].
      * rewrite write_slice_inside by (done || lia).
        by rewrite lookup_app_l by lia.
      * rewrite write_slice_outside by (done || lia).
        rewrite lookup_app_r by lia. rewrite lookup_drop, Hvals.
        rewrite row_lookup by lia. f_equal. lia.
    + unfold row at 1. rewrite lookup_take_ge by lia.
      symmetry. apply lookup_ge_None_2.
      rewrite length_app, length_drop, row_length by nia. lia.
  - apply Nat.ltb_ge in Hpos. assert (n = 0) as Hz by lia.
    split; [done|]. rewrite Hz in Hvals |- *.
    destruct vals; [|done]. by rewrite drop_0.
Qed.

(** A seeded request has the first [num_draft_tokens[i]] cells of its row of
    [uniform_probs] redrawn from its own generator, whichever other requests
    of the batch are seeded; the rest of the row keeps the draws of
    [torch.rand] (all of it for a request without drafted tokens).  The
    generators are a dict: each request has at most one. *)
Theorem seeded_row_uses_its_generator {T : Type} `{Arith T}
    (batch_size max_spec_len : nat) (num_draft_tokens : list nat)
    (gens : list (nat * generator T)) (g : generator T)
    (rand_default : list T) (r : nat) :
  let n := load 0 num_draft_tokens r in
  length rand_default = batch_size * max_spec_len ->
  NoDup (map fst gens) ->
  Forall (fun ig => fst ig < batch_size
                    /\ load 0 num_draft_tokens (fst ig) <= max_spec_len)
         gens ->
  (r, g) ∈ gens ->
  length (gen_uniform g n) = n ->
  row max_spec_len
      (draw_uniform_probs max_spec_len num_draft_tokens gens rand_default) r
  = gen_uniform g n ++ drop n (row max_spec_len rand_default r).
Proof.
  intros n Hrand Hnodup Hgens Hin Hg.
  apply list_elem_of_split in Hin as (l1 & l2 & ->).
  rewrite map_app in Hnodup. simpl in Hnodup.
  apply NoDup_app in Hnodup as (_ & Hl1 & Hnd2).
  apply NoDup_cons in Hnd2 as [Hl2 _].
  apply Forall_app in Hgens as [Hg1 Hg2].
  apply Forall_cons in Hg2 as [[Hr Hn] Hg2]. simpl in Hr, Hn. fold n in Hn.
  set (cond := fun ig : nat * generator T =>
                 0 <? load 0 num_draft_tokens (fst ig)).
  set (vals := fun ig : nat * generator T =>
                 take (load 0 num_draft_tokens (fst ig))
                      (gen_uniform (snd ig) (load 0 num_draft_tokens (fst ig)))).
  assert (Hother : forall l : list (nat * generator T),
             Forall (fun ig => fst ig < batch_size
                               /\ load 0 num_draft_tokens (fst ig) <= max_spec_len)
                    l ->
             r ∉ map fst l ->
             Forall (fun ig => fst ig < batch_size /\ fst ig <> r
                               /\ length (vals ig) <= max_spec_len) l).
  { intros l Hl Hnot. apply Forall_forall. intros ig Hig.
    rewrite Forall_forall in Hl. destruct (Hl ig Hig) as [Hb Hw].
    repeat split; [done| |].
    - intros Heq. apply Hnot. rewrite <- Heq.
      apply list_elem_of_fmap. by exists ig.
    - unfold vals. rewrite length_take. lia. }
  assert (Hnot1 : r ∉ map fst l1).
  { intros Hin1. apply (Hl1 r Hin1). simpl. apply elem_of_cons. by left. }
  unfold draw_uniform_probs. rewrite fold_left_app. cbn [fold_left fst snd].
  fold n.
  destruct (seeded_slices_frame max_spec_len batch_size cond vals r l1
              (Hother l1 Hg1 Hnot1) rand_default Hrand) as [Hlen1 Hrows1].
  set (mem1 := fold_left _ l1 rand_default) in *.
  destruct (seeded_step_row max_spec_len batch_size n r (gen_uniform g n)
              mem1 Hlen1 Hr Hn Hg) as [Hlen2 Hrow2].
  set (mem2 := if 0 <? n then _ else mem1) in *.
  destruct (seeded_slices_frame max_spec_len batch_size cond vals r l2
              (Hother l2 Hg2 Hl2) mem2 Hlen2) as [_ Hrows3].
  transitivity (row max_spec_len mem2 r).
  - exact (row_eq_of_lookups max_spec_len mem2 _ r Hrows3).
  - rewrite Hrow2.
    by rewrite (row_eq_of_lookups max_spec_len rand_default mem1 r Hrows1).
Qed.

Lemma seeded_row_uses_its_generator_witness :
  let n := load 0 [1; 2] 1 in
  row 3
      (draw_uniform_probs (T := Q) 3 [1; 2]
         [(0, mkGenerator (fun n => replicate n (1 # 5)%Q)
                          (fun n => replicate n 3%Q));
          (1, mkGenerator (fun n => replicate n (1 # 3)%Q)
                          (fun n => replicate n 2%Q))]
         [1 # 2; 1 # 2; 1 # 2; 1 # 2; 1 # 2; 1 # 2]%Q)
      1
  = gen_uniform (mkGenerator (fun n => replicate n (1 # 3)%Q)
                             (fun n => replicate n 2%Q)) n
    ++ drop n (row 3 [1 # 2; 1 # 2; 1 # 2; 1 # 2; 1 # 2; 1 # 2]%Q 1).
Proof.
  apply (seeded_row_uses_its_generator (T := Q) 2 3 [1; 2]
           [(0, mkGenerator (fun n => replicate n (1 # 5)%Q)
                            (fun n => replicate n 3%Q));
            (1, mkGenerator (fun n => replicate n (1 # 3)%Q)
                            (fun n => replicate n 2%Q))]
           (mkGenerator (fun n => replicate n (1 # 3)%Q)
                        (fun n => replicate n 2%Q))
           [1 # 2; 1 # 2; 1 # 2; 1 # 2; 1 # 2; 1 # 2]%Q 1).
  - reflexivity.
  - simpl. apply NoDup_cons. split; [|apply NoDup_singleton].
    intros Hin. apply list_elem_of_singleton in Hin. lia.
  - repeat constructor; unfold load; simpl; lia.
  - apply elem_of_cons. right. apply elem_of_cons. by left.
  - reflexivity.
Defined.

(** ** The acceptance test in exact arithmetic *)

Lemma all_accepted_row tok acc rep (seq_idx w n batch_size : nat) (bonus : Z)
    (o : list Z) :
  length o = batch_size * (w + 1) -> seq_idx < batch_size ->
  blank_row o w seq_idx -> n <= w ->
  accepted_prefix tok acc n ->
  (n < w -> tok n = PLACEHOLDER_TOKEN_ID) ->
  row (w + 1) (verdict_kernel tok acc rep (seq_idx * (w + 1)) bonus w o) seq_idx
  = map tok (seq 0 n) ++ [bonus] ++ replicate (w - n) PLACEHOLDER_TOKEN_ID.
Proof.
  intros Hlen Hseq Hblank Hn Hacc Hend.
  pose proof (row_in_range batch_size w seq_idx Hseq) as Hrow.
  assert (Hstore : verdict_kernel tok acc rep (seq_idx * (w + 1)) bonus w o
                   = store (accept_writes tok (seq_idx * (w + 1)) n o)
                           (seq_idx * (w + 1) + n) bonus).
  { destruct (decide (n = w)) as [->|Hne].
    - by apply verdict_kernel_full.
    - apply verdict_kernel_placeholder; [lia|done|]. apply Hend. lia. }
  rewrite Hstore. apply (written_row tok seq_idx w o n bonus).
  - done.
  - lia.
  - done.
  - by rewrite length_map, length_seq.
  - intros q Hq. unfold load.
    by rewrite list_lookup_fmap, lookup_seq_lt by done.
Qed.

Local Open Scope Q_scope.

Lemma Qle_bool_div (t d u : Q) :
  0 < d -> (Qle_bool u (t / d) = true <-> u * d <= t).
Proof.
  intros Hd. rewrite Qle_bool_iff. split; intros Hle.
  - apply (Qmult_le_r _ _ (/ d)); [by apply Qinv_lt_0_compat|].
    rewrite <- Qmult_assoc, Qmult_inv_r by lra. rewrite Qmult_1_r. exact Hle.
  - apply (Qmult_le_r _ _ (/ d)) in Hle; [|by apply Qinv_lt_0_compat].
    rewrite <- Qmult_assoc, Qmult_inv_r in Hle by lra.
    rewrite Qmult_1_r in Hle. exact Hle.
Qed.

(** Over the rationals, with a positive draft probability, the random
    kernel accepts a position exactly when
    [uniform_prob * draft_prob <= target_prob]; in n-gram mode
    ([draft_prob = 1]) exactly when [uniform_prob <= target_prob]. *)
Theorem acceptance_test_over_rationals (draft_token_ids : list Z)
    (draft_probs : option (list Q)) (target_probs uniform_probs : list Q)
    (max_spec_len vocab_size : nat) (IS_NGRAM : bool)
    (seq_idx pos : nat) :
  let token_id :=
    load 0%Z draft_token_ids (seq_idx * max_spec_len + pos)%nat in
  let base := (seq_idx * max_spec_len * vocab_size + pos * vocab_size)%nat in
  let draft_prob :=
    if IS_NGRAM then 1
    else load_at 0 (default [] draft_probs) base token_id in
  let target_prob := load_at 0 target_probs base token_id in
  let uniform_prob :=
    load 0 uniform_probs (seq_idx * max_spec_len + pos)%nat in
  0 < draft_prob ->
  (random_accepts draft_token_ids draft_probs target_probs uniform_probs
     max_spec_len vocab_size IS_NGRAM seq_idx pos = true
   <-> uniform_prob * draft_prob <= target_prob)
  /\ (IS_NGRAM = true ->
      (random_accepts draft_token_ids draft_probs target_probs uniform_probs
         max_spec_len vocab_size IS_NGRAM seq_idx pos = true
       <-> uniform_prob <= target_prob)).
Proof.
  intros token_id base draft_prob target_prob uniform_prob Hd.
  assert (Htest : random_accepts draft_token_ids draft_probs target_probs
                    uniform_probs max_spec_len vocab_size IS_NGRAM seq_idx pos
                  = Qle_bool uniform_prob (target_prob / draft_prob)).
  { unfold random_accepts. subst draft_prob. by destruct IS_NGRAM. }
  rewrite Htest. split; [by apply Qle_bool_div|].
  intros Hng. rewrite Qle_bool_div by done.
  subst draft_prob. rewrite Hng. by rewrite Qmult_1_r.
Qed.

Lemma acceptance_test_over_rationals_witness :
  let token_id := load 0%Z [1]%Z (0 * 1 + 0)%nat in
  let base := (0 * 1 * 2 + 0 * 2)%nat in
  let draft_prob :=
    if false then 1 else load_at 0 (default [] (Some [1 # 2; 1 # 2])) base token_id in
  let target_prob := load_at 0 [3 # 4; 1 # 4] base token_id in
  let uniform_prob := load 0 [1 # 3] (0 * 1 + 0)%nat in
  (random_accepts [1]%Z (Some [1 # 2; 1 # 2]) [3 # 4; 1 # 4] [1 # 3] 1 2
     false 0 0 = true
   <-> uniform_prob * draft_prob <= target_prob)
  /\ (false = true ->
      (random_accepts [1]%Z (Some [1 # 2; 1 # 2]) [3 # 4; 1 # 4] [1 # 3] 1 2
         false 0 0 = true
       <-> uniform_prob <= target_prob)).
Proof.
  apply (acceptance_test_over_rationals [1]%Z (Some [1 # 2; 1 # 2])
           [3 # 4; 1 # 4] [1 # 3] 1 2 false 0 0).
  reflexivity.
Defined.

(** A draft model with the distribution of the target: when [draft_probs]
    and [target_probs] are the same tensor, positive at the drafted tokens,
    and the uniform draws are at most 1, the random kernel accepts the
    whole draft of a random row and appends the bonus token. *)
Theorem identical_draft_is_fully_accepted (draft_token_ids : list Z)
    (probs : list Q) (bonus_token_ids recovered_token_ids : list Z)
    (uniform_probs : list Q) (is_greedy : list bool)
    (max_spec_len vocab_size batch_size : nat) (o : list Z)
    (seq_idx n : nat) :
  length o = (batch_size * (max_spec_len + 1))%nat ->
  (seq_idx < batch_size)%nat ->
  blank_row o max_spec_len seq_idx ->
  load false is_greedy seq_idx = false ->
  draft_length draft_token_ids max_spec_len seq_idx n ->
  (forall q, (q < n)%nat ->
     0 < load_at 0 probs
           (seq_idx * max_spec_len * vocab_size + q * vocab_size)%nat
           (load 0%Z draft_token_ids (seq_idx * max_spec_len + q)%nat)
     /\ load 0 uniform_probs (seq_idx * max_spec_len + q)%nat <= 1) ->
  row (max_spec_len + 1)
      (rejection_random_sample_kernel draft_token_ids (Some probs) probs
         bonus_token_ids recovered_token_ids uniform_probs is_greedy
         max_spec_len vocab_size false o seq_idx)
      seq_idx
  = draft_prefix draft_token_ids max_spec_len seq_idx n
    ++ [load 0%Z bonus_token_ids seq_idx]
    ++ replicate (max_spec_len - n) PLACEHOLDER_TOKEN_ID.
Proof.
  intros Hlen Hseq Hblank Hg (Hn & Hreal & Hend) Hprobs.
  rewrite random_kernel_verdict, Hg.
  apply (all_accepted_row _ _ _ seq_idx max_spec_len n batch_size); try done.
  intros q Hq. split; [by apply Hreal|].
  destruct (Hprobs q Hq) as [Hpos Hu].
  unfold random_accepts. cbn [default].
  set (t := load_at _ probs _ _) in *.
  set (u := load _ uniform_probs _) in *.
  change (Qle_bool u (t / t) = true).
  apply Qle_bool_iff.
  assert (t / t == 1) as -> by (field; lra). exact Hu.
Qed.

Lemma identical_draft_is_fully_accepted_witness :
  row (1 + 1)
      (rejection_random_sample_kernel [1]%Z (Some [1 # 4; 3 # 4])
         [1 # 4; 3 # 4] [42]%Z [0]%Z [9 # 10] [false] 1 2 false
         (replicate 2 PLACEHOLDER_TOKEN_ID) 0)
      0
  = draft_prefix [1]%Z 1 0 1 ++ [load 0%Z [42]%Z 0%nat]
    ++ replicate (1 - 1) PLACEHOLDER_TOKEN_ID.
Proof.
  apply (identical_draft_is_fully_accepted [1]%Z [1 # 4; 3 # 4] [42]%Z [0]%Z
           [9 # 10] [false] 1 2 1 (replicate 2 PLACEHOLDER_TOKEN_ID) 0 1).
  - reflexivity.
  - lia.
  - intros j Hj. destruct j as [|[|j]]; [reflexivity..|lia].
  - reflexivity.
  - split; [lia|]. split.
    + intros q Hq. assert (q = 0%nat) as -> by lia. discriminate.
    + lia.
  - intros q Hq. assert (q = 0%nat) as -> by lia.
    split; [reflexivity | unfold Qle; simpl; lia].
Defined.

Local Close Scope Q_scope.
